(** * The table renderer of ts-markdown, embedded in Rocq

    Source: the table renderer module ([tableRenderer], [getTableMarkdown],
    [buildDataRows], [renderCellText], [padAlign], [buildDividerRow],
    [buildHeaderRow], [escapePipes], [getDataRowPropertyName]).

    Conventions of the embedding.
    - A JavaScript string is a [string]; its [length] is [String.length].
    - A thrown exception is the [Throw] case of [result]; statements are
      sequenced with the monadic bind of [result].
    - [escapePipes] mutates its argument in place; the mutation is made
      explicit by returning the entry as it is after the call.
    - Objects are trees: no two properties alias the same object, and only
      own properties are looked up.
    - [renderEntries] belongs to the rendering engine, which is outside the
      module; it is a parameter of the development. *)

From Stdlib Require Import ZArith QArith Qround String Ascii List Lia.
From stdpp Require Import base option list strings gmap.

Set Default Proof Using "Type".
Set Warnings "-register-all".


(** ** JavaScript string primitives used by the renderer *)

Module JsString.

Definition newlineChar : ascii := ascii_of_nat 10.
Definition newline : string := String newlineChar "".

(** [c] repeated [n] times. *)
Fixpoint fill (c : ascii) (n : nat) : string :=
  match n with
  | O => ""
  | S n' => String c (fill c n')
  end.

(** [s.padEnd(targetLength, c)] for a one-character pad string. *)
Definition padEnd (s : string) (targetLength : nat) (c : ascii) : string :=
  s +:+ fill c (targetLength - String.length s).

(** [s.padStart(targetLength, c)] for a one-character pad string. *)
Definition padStart (s : string) (targetLength : nat) (c : ascii) : string :=
  fill c (targetLength - String.length s) +:+ s.

(** [s.replaceAll(c, by)] for a one-character pattern. *)
Fixpoint replaceAll (c : ascii) (by_ : string) (s : string) : string :=
  match s with
  | "" => ""
  | String a s' =>
      if Ascii.eqb a c then by_ +:+ replaceAll c by_ s'
      else String a (replaceAll c by_ s')
  end.

(** [ls.join(sep)] on an array of strings. *)
Definition join (sep : string) (ls : list string) : string :=
  String.concat sep ls.

(** [s.split(c)] for a one-character separator. *)
Fixpoint split (c : ascii) (s : string) : list string :=
  match s with
  | "" => [""]
  | String a s' =>
      if Ascii.eqb a c then "" :: split c s'
      else match split c s' with
           | [] => [String a ""]
           | x :: xs => String a x :: xs
           end
  end.

(** Does the character occur in the string? *)
Fixpoint contains (c : ascii) (s : string) : bool :=
  match s with
  | "" => false
  | String a s' => Ascii.eqb a c || contains c s'
  end.

(** [Math.floor] on a rational, as a rational. *)
Definition Math_floor (q : Q) : Q := inject_Z (Qfloor q).

(** [ToLength]: truncate towards zero, then clamp below at 0. *)
Definition ToLength (q : Q) : nat :=
  Z.to_nat (if Qle_bool 0 q then Qfloor q else Qceiling q).

End JsString.

Import JsString.

(** ** Exceptions *)

Inductive exn : Type :=
| Error (message : string)   (* [throw new Error(message)] *)
| TypeError.                 (* raised by the runtime, e.g. a property read on [undefined] *)

Inductive result (A : Type) : Type :=
| Ok (a : A)
| Throw (e : exn).
Arguments Ok {A} a.
Arguments Throw {A} e.

#[global] Instance result_ret : MRet result := fun A a => Ok a.
#[global] Instance result_bind : MBind result := fun A B f m =>
  match m with
  | Ok a => f a
  | Throw e => Throw e
  end.

Definition isOk {A} (r : result A) : bool :=
  match r with Ok _ => true | Throw _ => false end.

(** ** Values *)

(** A table cell is a primitive or a rich-text entry, that is, any tree of
    objects and arrays over primitives. *)
Inductive value : Type :=
| VUndefined
| VNull
| VBool (b : bool)
| VNum (n : Z)
| VStr (s : string)
| VArr (items : list value)
| VObj (props : list (string * value)).

(** What [renderEntries] hands back, as far as the table renderer can
    observe it: a string, [null]/[undefined], or something else, of which
    only its string conversion is ever used. *)
Inductive rendered : Type :=
| RString (s : string)
| RNullish
| ROther (toString : string).

(** ** Data model *)

Record TableColumn : Type := mkTableColumn {
  name : string;
  field : option string;
  align : option string;   (* 'left' | 'center' | 'right' when present *)
}.

(** [TableColumn | string] *)
Inductive Column : Type :=
| ColString (s : string)
| ColObject (c : TableColumn).

(** [TableRow | TableCell[]] *)
Inductive Row : Type :=
| RowArray (cells : list value)
| RowObject (cells : gmap string value).

(** The record sits in a module so that [Model.columns] can name the field
    where a function has a parameter called [columns] as well. *)
Module Model.

Record Table : Type := mkTable {
  columns : list Column;
  rows : list Row;
}.

End Model.
Export Model.

(** An entry as the renderer receives it. [table] is [None] when the entry
    has no [table] property; [others] are its remaining own properties. *)
Record TableEntry : Type := mkTableEntry {
  table : option Table;
  append : option string;
  pipeReplacer : option (string -> string);
  prefixCellValues : option bool;
  others : list (string * value);
}.

Record RenderOptions : Type := mkRenderOptions {
  prefix : option string;
  rest : list (string * value);
}.

Record RenderResult : Type := mkRenderResult {
  markdown : string;
  blockLevel : bool;
}.

(** ** Pipe escaping *)

Definition defaultPipeReplacer (content : string) : string :=
  replaceAll "|" "&#124;" content.

(** [escapePipes] visits the elements of an array twice: once in the
    [Array.isArray] loop and once more in the [typeof target === 'object']
    loop, which is not an [else] branch and for which [Object.keys] of an
    array are its indices. A direct transcription would recurse on the
    result of a recursive call, so the function is defined for [k]
    successive applications at once; [escapeTimes 1] is [escapePipes], and
    the equations of the source are proved below
    ([escapePipes_string], [escapePipes_array_twice],
    [escapePipes_object]). *)
Fixpoint escapeTimes (k : nat) (pipeReplacer : string -> string)
    (target : value) : value :=
  match target with
  | VStr s => VStr (Nat.iter k pipeReplacer s)
  | VArr items => VArr (map (escapeTimes (2 * k) pipeReplacer) items)
  | VObj props =>
      VObj (map (fun kv => (kv.1, escapeTimes k pipeReplacer kv.2)) props)
  | _ => target
  end.

(** [escapePipes<T>(target: T, pipeReplacer)]: one instance per runtime
    shape of [T]. *)
Class EscapePipes (T : Type) : Type :=
  escapePipes : T -> (string -> string) -> T.
#[global] Hint Mode EscapePipes ! : typeclass_instances.

(** [typeof target === 'string'] *)
#[global] Instance escapePipes_str : EscapePipes string :=
  fun target pipeReplacer => pipeReplacer target.

#[global] Instance escapePipes_value : EscapePipes value :=
  fun target pipeReplacer => escapeTimes 1 pipeReplacer target.

(** Neither a string, nor an array, nor an object. *)
#[global] Instance escapePipes_bool : EscapePipes bool :=
  fun target _ => target.

(** A function ([typeof] is ['function']) is returned as it is. *)
#[global] Instance escapePipes_fun : EscapePipes (string -> string) :=
  fun target _ => target.

(** An optional property: nothing to visit when it is absent. *)
#[global] Instance escapePipes_option `{EscapePipes T} : EscapePipes (option T) :=
  fun target pipeReplacer => (fun x => escapePipes x pipeReplacer) <$> target.

(** [Array.isArray(target)]: the index loop, then the [Object.keys] loop. *)
#[global] Instance escapePipes_array `{EscapePipes T} : EscapePipes (list T) :=
  fun target pipeReplacer =>
    let target := (fun x => escapePipes x pipeReplacer) <$> target in
    (fun x => escapePipes x pipeReplacer) <$> target.

(** An object used as a map: every value is visited, keys are not. *)
#[global] Instance escapePipes_props `{EscapePipes T} :
    EscapePipes (list (string * T)) :=
  fun target pipeReplacer =>
    (fun kv => (kv.1, escapePipes kv.2 pipeReplacer)) <$> target.

#[global] Instance escapePipes_gmap `{EscapePipes T} :
    EscapePipes (gmap string T) :=
  fun target pipeReplacer => (fun x => escapePipes x pipeReplacer) <$> target.

#[global] Instance escapePipes_TableColumn : EscapePipes TableColumn :=
  fun target pipeReplacer =>
    {| name := escapePipes (name target) pipeReplacer;
       field := escapePipes (field target) pipeReplacer;
       align := escapePipes (align target) pipeReplacer |}.

#[global] Instance escapePipes_Column : EscapePipes Column :=
  fun target pipeReplacer =>
    match target with
    | ColString s => ColString (escapePipes s pipeReplacer)
    | ColObject c => ColObject (escapePipes c pipeReplacer)
    end.

#[global] Instance escapePipes_Row : EscapePipes Row :=
  fun target pipeReplacer =>
    match target with
    | RowArray cells => RowArray (escapePipes cells pipeReplacer)
    | RowObject cells => RowObject (escapePipes cells pipeReplacer)
    end.

#[global] Instance escapePipes_Table : EscapePipes Table :=
  fun target pipeReplacer =>
    {| columns := escapePipes (columns target) pipeReplacer;
       rows := escapePipes (rows target) pipeReplacer |}.

#[global] Instance escapePipes_TableEntry : EscapePipes TableEntry :=
  fun target replacer =>
    {| table := escapePipes (table target) replacer;
       append := escapePipes (append target) replacer;
       pipeReplacer := escapePipes (pipeReplacer target) replacer;
       prefixCellValues := escapePipes (prefixCellValues target) replacer;
       others := escapePipes (others target) replacer |}.

(** ** The renderer *)

(** [xs.map((x, index) => f(x, index))] with a callback that may throw. *)
Definition mapWithIndex {A B} (f : A -> nat -> result B) (xs : list A) :
    result (list B) :=
  mapM (fun ix => f ix.2 ix.1) (imap pair xs).

(** [xs.reduce((prev, curr) => f(prev, curr), init)] with a callback that
    may throw. *)
Fixpoint reduceM {A B} (f : B -> A -> result B) (init : B) (xs : list A) :
    result B :=
  match xs with
  | [] => Ok init
  | curr :: xs' => prev ← f init curr; reduceM f prev xs'
  end.

(** A string method called on [cellText]: a [TypeError] unless it is a
    string. *)
Definition stringMethod (cellText : rendered) (method : string -> string) :
    result rendered :=
  match cellText with
  | RString s => Ok (RString (method s))
  | _ => Throw TypeError
  end.

(** [x ?? ''] *)
Definition orEmpty (x : rendered) : rendered :=
  match x with
  | RNullish => RString ""
  | _ => x
  end.

(** The conversion [Array.prototype.join] applies to an element. *)
Definition joinText (x : rendered) : string :=
  match x with
  | RString s => s
  | RNullish => ""
  | ROther toString => toString
  end.

Definition getDataRowPropertyName (curr : Column) : string :=
  match curr with
  | ColString s => s
  | ColObject c => default (name c) (field c)
  end.

Definition getColumnName (column : Column) : string :=
  match column with
  | ColString s => s
  | ColObject c => name c
  end.

Definition getColumnHeaderTextLength (column : Column) : nat :=
  match column with
  | ColString s => String.length s
  | ColObject c => String.length (name c)
  end.

Definition getLeftSideAlignmentCharacter (column : Column) : string :=
  match column with
  | ColString _ => " "
  | ColObject c =>
      if bool_decide (align c = Some "left")
         || bool_decide (align c = Some "center")
      then ":" else " "
  end.

Definition getRightSideAlignmentCharacter (column : Column) : string :=
  match column with
  | ColString _ => " "
  | ColObject c =>
      if bool_decide (align c = Some "right")
         || bool_decide (align c = Some "center")
      then ":" else " "
  end.

(** [typeof column === 'string' || column.align === 'left' || !column.align];
    the empty string is falsy. *)
Definition padsLeftAligned (column : Column) : bool :=
  match column with
  | ColString _ => true
  | ColObject c =>
      bool_decide (align c = Some "left")
      || bool_decide (align c = None) || bool_decide (align c = Some "")
  end.

Definition alignIs (column : Column) (a : string) : bool :=
  match column with
  | ColString _ => false
  | ColObject c => bool_decide (align c = Some a)
  end.

(** [cellText.length + Math.floor(cellWidth - cellText.length) / 2], as
    [padStart] reads it. The division comes after [Math.floor], so the
    number may be a half; [padStart] truncates it. *)
Definition centerTarget (len cellWidth : nat) : nat :=
  ToLength (inject_Z (Z.of_nat len)
            + Math_floor (inject_Z (Z.of_nat cellWidth)
                          - inject_Z (Z.of_nat len)) / 2)%Q.

(** [cellWidth] and [column] come from index reads and are [None] when the
    read is out of range. Reading [align] of an undefined column throws; an
    undefined width pads nothing ([ToLength] of [undefined] and of [NaN]
    is 0). *)
Definition padAlign (cellText : rendered) (cellWidth : option nat)
    (column : option Column) : result rendered :=
  match column with
  | None => Throw TypeError
  | Some column =>
      if padsLeftAligned column then
        stringMethod cellText (fun s => padEnd s (default 0 cellWidth) " ")
      else if alignIs column "center" then
        stringMethod cellText (fun s =>
          padEnd
            (padStart s
               (from_option (centerTarget (String.length s)) 0 cellWidth) " ")
            (default 0 cellWidth) " ")
      else if alignIs column "right" then
        stringMethod cellText (fun s => padStart s (default 0 cellWidth) " ")
      else Ok cellText
  end.

Definition buildDividerRow (cellWidths : list nat) (columns : list Column) :
    result string :=
  cells ← mapWithIndex (fun cellWidth index =>
             match columns !! index with
             | None => Throw TypeError
             | Some column =>
                 Ok (getLeftSideAlignmentCharacter column
                     +:+ padStart "" cellWidth "-"
                     +:+ getRightSideAlignmentCharacter column)
             end) cellWidths;
  Ok ("|" +:+ join "|" cells +:+ "|").

(** [entry.table], a [TypeError] when there is none to read from. *)
Definition tableOf (entry : TableEntry) : result Table :=
  match table entry with
  | Some t => Ok t
  | None => Throw TypeError
  end.

Definition buildHeaderRow (entry : TableEntry) (cellWidths : list nat)
    (columns : list Column) : result string :=
  t ← tableOf entry;
  cells ← mapWithIndex (fun column index =>
             padAlign (RString (getColumnName column))
               (cellWidths !! index) (columns !! index)) (Model.columns t);
  Ok ("| " +:+ join " | " (joinText <$> cells) +:+ " |").

Definition multiLineMessage : string :=
  "Unknown table rendering scenario encountered. Multi-line table cell content is not supported.".

Definition notTableMessage : string :=
  "Entry is not a table entry. Unable to render.".

Definition minColumnWidth : nat := 3.

Section Renderer.

(** The rendering engine's [renderEntries(data, options)]. *)
Variable renderEntries : list value -> RenderOptions -> rendered.

Definition renderCellText (v : value) (options : RenderOptions)
    (prefixCellValues : option bool) : rendered :=
  let prefixCellValues := default true prefixCellValues in
  renderEntries [v]
    {| prefix := if prefixCellValues then prefix options else Some "";
       rest := rest options |}.

(** [Array.isArray(curr) ? curr[i] : curr[getDataRowPropertyName(column)]] *)
Definition cellValueAt (curr : Row) (i : nat) (column : Column) : value :=
  match curr with
  | RowArray cells => default VUndefined (cells !! i)
  | RowObject cells =>
      default VUndefined (cells !! getDataRowPropertyName column)
  end.

(** The callback of the [rows.reduce] of the width computation. *)
Definition collectCellText (entry : TableEntry) (options : RenderOptions)
    (i : nat) (column : Column) (prev : list string) (curr : Row) :
    result (list string) :=
  match cellValueAt curr i column with
  | VUndefined => Ok prev
  | v =>
      match renderCellText v options (prefixCellValues entry) with
      | RString text => Ok (prev ++ [text])
      | _ => Throw (Error multiLineMessage)
      end
  end.

(** The body of the [for] loop of [getTableMarkdown]: [cellWidths[i]]. *)
Definition columnWidth (entry : TableEntry) (options : RenderOptions)
    (i : nat) : result nat :=
  t ← tableOf entry;
  match columns t !! i with
  | None => Throw TypeError
  | Some column =>
      texts ← reduceM (collectCellText entry options i column) [] (rows t);
      let columnCellTexts :=
        getColumnHeaderTextLength column :: (String.length <$> texts) in
      Ok (fold_left (fun prev curr =>
                       Nat.max minColumnWidth (Nat.max prev curr))
            columnCellTexts 0)
  end.

(** The [cells] of one data row. *)
Definition dataRowCells (entry : TableEntry) (cellWidths : list nat)
    (columns : list Column) (options : RenderOptions) (row : Row) :
    result (list rendered) :=
  t ← tableOf entry;
  match row with
  | RowArray row =>
      mapWithIndex (fun cell index =>
        padAlign (renderCellText cell options (prefixCellValues entry))
          (cellWidths !! index) (Model.columns t !! index)) row
  | RowObject row =>
      mapWithIndex (fun curr index =>
        padAlign
          (orEmpty (renderCellText
                      (default VUndefined (row !! getDataRowPropertyName curr))
                      options (prefixCellValues entry)))
          (cellWidths !! index) (Model.columns t !! index)) columns
  end.

Definition buildDataRows (entry : TableEntry) (cellWidths : list nat)
    (columns : list Column) (options : RenderOptions) :
    result (list string) :=
  t ← tableOf entry;
  mapM (fun row =>
          cells ← dataRowCells entry cellWidths columns options row;
          Ok ("| " +:+ join " | " (joinText <$> cells) +:+ " |"))
       (rows t).

(** The width loop of [getTableMarkdown]. *)
Definition computeCellWidths (entry : TableEntry) (options : RenderOptions) :
    result (list nat) :=
  t ← tableOf entry;
  let columnCount := length (columns t) in
  mapM (columnWidth entry options) (seq 0 columnCount).

(** [getTableMarkdown] after its first statement, on the escaped entry.
    [columnNames] is computed by the source and never read; it is left
    out. *)
Definition assembleTable (entry : TableEntry) (options : RenderOptions) :
    result string :=
  t ← tableOf entry;
  cellWidths ← computeCellWidths entry options;
  header ← buildHeaderRow entry cellWidths (columns t);
  divider ← buildDividerRow cellWidths (columns t);
  dataRows ← buildDataRows entry cellWidths (columns t) options;
  Ok (join newline (header :: divider :: dataRows)).

(** The entry comes back as [escapePipes] left it, also when the rest of
    the function throws. *)
Definition getTableMarkdown (entry : TableEntry) (options : RenderOptions) :
    result string * TableEntry :=
  let entry :=
    escapePipes entry (default defaultPipeReplacer (pipeReplacer entry)) in
  (assembleTable entry options, entry).

(** ['table' in entry] is [table entry ≠ None]. *)
Definition tableRenderer (entry : TableEntry) (options : RenderOptions) :
    result RenderResult * TableEntry :=
  match table entry with
  | Some _ =>
      let '(md, entry) := getTableMarkdown entry options in
      (md ← md; Ok {| markdown := md; blockLevel := true |}, entry)
  | None => (Throw (Error notTableMessage), entry)
  end.

End Renderer.

(** A stand-in for the rendering engine on the cells used in examples: a
    string renders as itself after the prefix, [undefined] and [null] as
    nothing. *)
Definition plainRenderEntries (data : list value) (options : RenderOptions) :
    rendered :=
  match data with
  | [VStr s] => RString (default "" (prefix options) +:+ s)
  | [VUndefined] | [VNull] => RNullish
  | _ => ROther "[object Object]"
  end.

Definition noOptions : RenderOptions := {| prefix := None; rest := [] |}.

Definition tableEntry (cols : list Column) (rws : list Row) : TableEntry :=
  {| table := Some {| columns := cols; rows := rws |};
     append := None; pipeReplacer := None; prefixCellValues := None;
     others := [] |}.

(** ** Vocabulary of the statements *)

(** The alignment a column declares; a bare-string column declares none. *)
Definition columnAlign (column : Column) : option string :=
  match column with
  | ColString _ => None
  | ColObject c => align c
  end.

(** [align] holds one of the values its type allows, or is absent. *)
Definition alignWellTyped (column : Column) : Prop :=
  columnAlign column = None ∨ columnAlign column = Some "left"
  ∨ columnAlign column = Some "center" ∨ columnAlign column = Some "right".

Definition isDefined (v : value) : bool :=
  match v with
  | VUndefined => false
  | _ => true
  end.

(** The divider row as the specification words it: [width] dashes with a
    colon before them for a left- or center-aligned column and one after
    them for a right- or center-aligned column, and nothing else between
    the pipes. *)
Definition specDividerCell (column : Column) (width : nat) : string :=
  (if bool_decide (columnAlign column = Some "left")
      || bool_decide (columnAlign column = Some "center")
   then ":" else "")
  +:+ fill "-" width
  +:+ (if bool_decide (columnAlign column = Some "right")
          || bool_decide (columnAlign column = Some "center")
       then ":" else "").

Definition specDividerRow (cellWidths : list nat) (columns : list Column) :
    string :=
  "|" +:+ join "|" (zip_with specDividerCell columns cellWidths) +:+ "|".

(** The values a data row takes its cells from: its own elements for a
    positional row, one lookup per column for a mapping row. *)
Definition rowCellValues (columns : list Column) (row : Row) : list value :=
  match row with
  | RowArray cells => cells
  | RowObject cells =>
      (λ column, default VUndefined (cells !! getDataRowPropertyName column))
      <$> columns
  end.

(** A row without the property [key]; positional rows have no keys. *)
Definition withoutKey (key : string) (row : Row) : Row :=
  match row with
  | RowArray cells => RowArray cells
  | RowObject cells => RowObject (delete key cells)
  end.

(** The entry with the property [key] removed from every mapping row. *)
Definition withoutKeyInRows (key : string) (entry : TableEntry) : TableEntry :=
  {| table :=
       (λ t, {| columns := columns t; rows := withoutKey key <$> rows t |})
       <$> table entry;
     append := append entry;
     pipeReplacer := pipeReplacer entry;
     prefixCellValues := prefixCellValues entry;
     others := others entry |}.

(** A condition on a call, not a property of every engine: under the
    options that [renderCellText] hands to the engine, the engine renders
    [undefined] to nothing, that is, to [null], to [undefined] or to the
    empty string. An engine that prepends the prefix to every cell meets the
    condition only where no prefix reaches the cells (see
    [prefixingRenderEntries]). *)
Definition rendersMissingAsEmpty
    (renderEntries : list value → RenderOptions → rendered)
    (options : RenderOptions) (prefixCellValues : option bool) : Prop :=
  renderCellText renderEntries VUndefined options prefixCellValues = RNullish
  ∨ renderCellText renderEntries VUndefined options prefixCellValues
    = RString "".

(** Modelled from the spec: the rendering engine ([renderEntries]) is not
    under [src]. The specification has the prefix "applied to each rendered
    line", and the docstring of [prefixCellValues] in the source has it
    prepended to every data cell. This stand-in puts the prefix before the
    text of a string and renders [undefined] and [null] to the prefix
    alone. *)
Definition prefixingRenderEntries (data : list value)
    (options : RenderOptions) : rendered :=
  match data with
  | [VStr s] => RString (default "" (prefix options) +:+ s)
  | [VUndefined] | [VNull] => RString (default "" (prefix options))
  | _ => ROther "[object Object]"
  end.


(** The options [renderCellText] hands to the engine for the cells of an
    entry. *)
Definition cellOptions (entry : TableEntry) (options : RenderOptions) :
    RenderOptions :=
  {| prefix := if default true (prefixCellValues entry)
               then prefix options else Some "";
     rest := rest options |}.

(** The strings of a value, in the order in which the escape meets them. *)
Fixpoint stringsOf (v : value) : list string :=
  match v with
  | VStr s => [s]
  | VArr items => flat_map stringsOf items
  | VObj props => flat_map (λ kv, stringsOf kv.2) props
  | _ => []
  end.

(** [s'] is [s] after one or more passes of the replacer. *)
Definition rewrittenBy (p : string → string) (s s' : string) : Prop :=
  ∃ n, 0 < n ∧ s' = Nat.iter n p s.

Definition singleLine (s : string) : Prop := contains newlineChar s = false.

(** No column name and no cell text of the table has a line break. *)
Definition singleLineTable
    (renderEntries : list value → RenderOptions → rendered)
    (entry : TableEntry) (options : RenderOptions) : Prop :=
  match table entry with
  | None => True
  | Some t =>
      Forall (λ column, singleLine (getColumnName column)) (columns t) ∧
      Forall (λ row,
                Forall (λ v, singleLine
                               (joinText (renderCellText renderEntries v options
                                            (prefixCellValues entry))))
                  (rowCellValues (columns t) row))
        (rows t)
  end.

(** ** Example inputs *)

(** Two bare-string columns and two mapping rows. *)
Definition nameAgeEntry : TableEntry :=
  tableEntry [ColString "Name"; ColString "Age"]
    [RowObject {[ "Name" := VStr "Al"; "Age" := VStr "30" ]};
     RowObject {[ "Name" := VStr "Bo"; "Age" := VStr "7" ]}].

(** A mapping row that lacks the key of the second column. *)
Definition missingAgeEntry : TableEntry :=
  tableEntry [ColString "Name"; ColString "Age"]
    [RowObject {[ "Name" := VStr "Al" ]}].

(** A cell with a line break in it. *)
Definition multiLineEntry : TableEntry :=
  tableEntry [ColString "A"]
    [RowArray [VStr ("line1" +:+ newline +:+ "line2")]].

(** A column name with a line break in it, and no rows. *)
Definition brokenHeaderEntry : TableEntry :=
  tableEntry [ColString ("a" +:+ newline +:+ "b")] [].

(** A positional row with fewer cells than there are columns. *)
Definition shortRowEntry : TableEntry :=
  tableEntry [ColString "A"; ColString "B"] [RowArray [VStr "x"]].

(** An entry of another kind: no [table] property. *)
Definition boldEntry : TableEntry :=
  {| table := None; append := Some "x|y"; pipeReplacer := None;
     prefixCellValues := None; others := [("bold", VStr "a|b")] |}.

(** A structured column whose [field] has a pipe in it, and a mapping row
    keyed by that field. *)
Definition pipeFieldEntry : TableEntry :=
  {| table :=
       Some {| columns := [ColObject (mkTableColumn "Key" (Some "a|b") None)];
               rows := [RowObject {[ "a|b" := VStr "value" ]}] |};
     append := Some "x|y"; pipeReplacer := None; prefixCellValues := None;
     others := [] |}.

(** ** The code block renderer *)

(** [boolean | '`' | '~'] *)
Inductive Fencing : Type :=
| FenceBool (b : bool)
| FenceBacktick
| FenceTilde.

(** [string | string[]] *)
Inductive CodeBlock : Type :=
| CodeString (code : string)
| CodeLines (lines : list string).

(** [codeblock] is [None] when the entry has no [codeblock] property. *)
Record CodeBlockEntry : Type := mkCodeBlockEntry {
  codeblock : option CodeBlock;
  fenced : option Fencing;
  language : option string;
}.

Record DataDrivenMarkdownOptions : Type := mkDataDrivenMarkdownOptions {
  useCodeblockFencing : option Fencing;
}.

(** [x ?? y] *)
Definition orElse {A} (x y : option A) : option A :=
  match x with
  | Some v => Some v
  | None => y
  end.

(** Truthiness of a fencing setting: [undefined] and [false] are falsy, the
    two one-character strings are truthy. *)
Definition truthyFencing (fencing : option Fencing) : bool :=
  match fencing with
  | None => false
  | Some (FenceBool b) => b
  | Some _ => true
  end.

Definition getCodeFenceCharacter (fencing : option Fencing) : string :=
  match fencing with
  | Some FenceTilde => "~"
  | _ => "`"
  end.

Definition getCodeFenceOpen (fencing : option Fencing)
    (language : option string) : string :=
  let fenceCharacter := getCodeFenceCharacter fencing in
  let languageCharacter := default "" language in
  fenceCharacter +:+ fenceCharacter +:+ fenceCharacter +:+ languageCharacter.

Definition getCodeFenceClose (entry : CodeBlockEntry)
    (options : DataDrivenMarkdownOptions) : string :=
  let fenceCharacter :=
    getCodeFenceCharacter (orElse (fenced entry) (useCodeblockFencing options))
  in
  fenceCharacter +:+ fenceCharacter +:+ fenceCharacter.

Definition notCodeblockMessage : string :=
  "Entry is not a codeblock entry. Unable to render.".

Definition codeblockRenderer (entry : CodeBlockEntry)
    (options : DataDrivenMarkdownOptions) : result string :=
  let fencing := orElse (useCodeblockFencing options) (fenced entry) in
  match codeblock entry with
  | Some code =>
      let linePrefix := if truthyFencing fencing then "" else "    " in
      let blockStart :=
        if truthyFencing fencing
        then getCodeFenceOpen fencing (language entry) +:+ newline
        else "" in
      let blockEnd :=
        if truthyFencing fencing
        then newline +:+ getCodeFenceClose entry options
        else "" in
      let codeBlock :=
        match code with
        | CodeString code =>
            linePrefix
            +:+ join (newline +:+ linePrefix) (split newlineChar code)
        | CodeLines lines =>
            join newline ((λ line, linePrefix +:+ line) <$> lines)
        end in
      Ok (blockStart +:+ codeBlock +:+ blockEnd)
  | None => Throw (Error notCodeblockMessage)
  end.

(** ** Further vocabulary *)

(** No string of the value has a pipe in it. *)
Fixpoint pipeFree (v : value) : bool :=
  match v with
  | VStr s => negb (contains "|" s)
  | VArr items => forallb pipeFree items
  | VObj props => forallb (λ kv, pipeFree kv.2) props
  | _ => true
  end.

(** How often the character occurs in the string. *)
Fixpoint occurrences (c : ascii) (s : string) : nat :=
  match s with
  | EmptyString => 0
  | String a s' => (if Ascii.eqb a c then 1 else 0) + occurrences c s'
  end.

(** A positional row has no more cells than there are columns; a mapping
    row always fits. *)
Definition rowFits (columnCount : nat) (row : Row) : Prop :=
  match row with
  | RowArray cells => length cells ≤ columnCount
  | RowObject _ => True
  end.

(** A positional row has exactly one cell per column. *)
Definition rowFull (columnCount : nat) (row : Row) : Prop :=
  match row with
  | RowArray cells => length cells = columnCount
  | RowObject _ => True
  end.

(** An engine that keeps to its declared return type: it returns a string
    for whatever it is given. *)
Definition returnsStrings
    (renderEntries : list value → RenderOptions → rendered) : Prop :=
  ∀ data options, ∃ s, renderEntries data options = RString s.

(** The fence a fenced block opens with uses the tilde. *)
Definition isTilde (fencing : option Fencing) : bool :=
  match fencing with
  | Some FenceTilde => true
  | _ => false
  end.

(** A replacer that doubles as an example of one that is not idempotent: a
    backslash before every pipe. *)
Definition backslashReplacer (content : string) : string :=
  replaceAll "|" "\|" content.

(** The entry of [pipeFieldEntry] with a replacer that changes nothing. *)
Definition keptPipeEntry : TableEntry :=
  {| table :=
       Some {| columns := [ColObject (mkTableColumn "Key" (Some "a|b") None)];
               rows := [RowObject {[ "a|b" := VStr "value" ]}] |};
     append := None; pipeReplacer := Some (λ content, content);
     prefixCellValues := None; others := [] |}.

(** ** Induction on values *)

Section ValueInd.

Variable P : value → Prop.
Hypothesis Hundefined : P VUndefined.
Hypothesis Hnull : P VNull.
Hypothesis Hbool : ∀ b, P (VBool b).
Hypothesis Hnum : ∀ n, P (VNum n).
Hypothesis Hstr : ∀ s, P (VStr s).
Hypothesis Harr : ∀ items, Forall P items → P (VArr items).
Hypothesis Hobj : ∀ props, Forall (λ kv, P kv.2) props → P (VObj props).

Fixpoint value_nested_ind (v : value) : P v :=
  match v with
  | VUndefined => Hundefined
  | VNull => Hnull
  | VBool b => Hbool b
  | VNum n => Hnum n
  | VStr s => Hstr s
  | VArr items =>
      Harr items
        ((fix go (l : list value) : Forall P l :=
            match l with
            | [] => Forall_nil_2 P
            | x :: l' => Forall_cons_2 P x l' (value_nested_ind x) (go l')
            end) items)
  | VObj props =>
      Hobj props
        ((fix go (l : list (string * value)) : Forall (λ kv, P kv.2) l :=
            match l with
            | [] => Forall_nil_2 _
            | kv :: l' =>
                Forall_cons_2 (λ kv, P kv.2) kv l'
                  (value_nested_ind kv.2) (go l')
            end) props)
  end.

End ValueInd.

(** * Properties *)

(** ** Strings *)

Section StringFacts.

Implicit Types (s r : string) (c a : ascii) (n : nat).

Lemma length_fill c n : String.length (fill c n) = n.
Proof. induction n as [|n IH]; simpl; [done | by rewrite IH]. Qed.

Lemma length_append s r :
  String.length (s +:+ r) = String.length s + String.length r.
Proof. induction s as [|a s IH]; simpl; [done | by rewrite IH]. Qed.

Lemma append_cons a s r : String a s +:+ r = String a (s +:+ r).
Proof. reflexivity. Qed.

Lemma append_empty_r s : s +:+ "" = s.
Proof.
  induction s as [|a s IH]; [done | by rewrite append_cons, IH].
Qed.

Lemma append_assoc s r t : (s +:+ r) +:+ t = s +:+ (r +:+ t).
Proof.
  induction s as [|a s IH]; [done | by rewrite !append_cons, IH].
Qed.

Lemma fill_add c n m : fill c (n + m) = fill c n +:+ fill c m.
Proof. induction n as [|n IH]; simpl; [done | by rewrite IH]. Qed.

Lemma contains_append c s r :
  contains c (s +:+ r) = contains c s || contains c r.
Proof.
  induction s as [|a s IH]; simpl; [done|].
  rewrite IH. by destruct (Ascii.eqb a c).
Qed.

Lemma contains_fill c a n : a ≠ c → contains c (fill a n) = false.
Proof.
  intros Hne. induction n as [|n IH]; simpl; [done|].
  rewrite IH. by apply Ascii.eqb_neq in Hne as ->.
Qed.

Lemma replaceAll_absent c r s :
  contains c s = false → replaceAll c r s = s.
Proof.
  induction s as [|a s IH]; simpl; [done|].
  destruct (Ascii.eqb a c); simpl; [done|].
  intros H. by rewrite IH.
Qed.

Lemma contains_replaceAll c r s :
  contains c r = false → contains c (replaceAll c r s) = false.
Proof.
  intros Hr. induction s as [|a s IH]; simpl; [done|].
  destruct (Ascii.eqb a c) eqn:Ha; simpl.
  - by rewrite contains_append, Hr, IH.
  - by rewrite Ha, IH.
Qed.

Lemma replaceAll_present c r s :
  contains c r = false → contains c s = true → replaceAll c r s ≠ s.
Proof.
  intros Hr Hs Heq.
  pose proof (contains_replaceAll c r s Hr) as H.
  rewrite Heq in H. congruence.
Qed.

Lemma split_absent c s : contains c s = false → split c s = [s].
Proof.
  induction s as [|a s IH]; simpl; [done|].
  destruct (Ascii.eqb a c); simpl; [done|].
  intros H. by rewrite IH.
Qed.

Lemma split_append c s r :
  contains c s = false → split c (s +:+ String c r) = s :: split c r.
Proof.
  induction s as [|a s IH]; simpl.
  - by rewrite Ascii.eqb_refl.
  - destruct (Ascii.eqb a c); simpl; [done|].
    intros H. by rewrite IH.
Qed.

Lemma split_join c (ls : list string) :
  ls ≠ [] → Forall (λ s, contains c s = false) ls →
  split c (join (String c "") ls) = ls.
Proof.
  intros Hne Hall. induction Hall as [|s ls Hs Hall IH]; [done|].
  destruct ls as [|s' ls'].
  - simpl. by apply split_absent.
  - change (join (String c "") (s :: s' :: ls'))
      with (s +:+ String c (join (String c "") (s' :: ls'))).
    rewrite split_append by done. by rewrite IH.
Qed.

Lemma contains_join c sep (ls : list string) :
  contains c sep = false → Forall (λ s, contains c s = false) ls →
  contains c (join sep ls) = false.
Proof.
  intros Hsep Hall. induction Hall as [|s ls Hs Hall IH]; [done|].
  destruct ls as [|s' ls']; [done|].
  change (join sep (s :: s' :: ls'))
    with (s +:+ sep +:+ join sep (s' :: ls')).
  by rewrite !contains_append, Hs, Hsep, IH.
Qed.

End StringFacts.

(** ** The escaper *)

Section Escaper.

Implicit Types (p : string → string) (v : value) (s : string).

Lemma escapeTimes_compose p j k v :
  escapeTimes j p (escapeTimes k p v) = escapeTimes (j + k) p v.
Proof.
  revert j k. induction v using value_nested_ind; intros j k; simpl;
    try done.
  - by rewrite Nat.iter_add.
  - f_equal. rewrite map_map. apply map_ext_Forall.
    eapply Forall_impl; [done|]. intros x Hx; simpl. rewrite Hx.
    f_equal. lia.
  - f_equal. rewrite map_map. apply map_ext_Forall.
    eapply Forall_impl; [done|]. intros x Hx; simpl. by rewrite Hx.
Qed.

(** The equations of the source function. *)
Lemma escapePipes_string p s : escapePipes (VStr s) p = VStr (p s).
Proof. done. Qed.

Lemma escapePipes_array_twice p items :
  escapePipes (VArr items) p =
  VArr ((λ x, escapePipes x p) <$> ((λ x, escapePipes x p) <$> items)).
Proof.
  unfold escapePipes, escapePipes_value; simpl. f_equal.
  rewrite <- list_fmap_compose. apply list_fmap_ext. intros _ x _; simpl.
  by rewrite escapeTimes_compose.
Qed.

Lemma escapePipes_object p props :
  escapePipes (VObj props) p =
  VObj ((λ kv, (kv.1, escapePipes kv.2 p)) <$> props).
Proof. done. Qed.

Lemma escapePipes_other p v :
  match v with VStr _ | VArr _ | VObj _ => True | _ => escapePipes v p = v end.
Proof. by destruct v. Qed.

Lemma escapeTimes_iterate p k v :
  escapeTimes (S k) p v = escapePipes (escapeTimes k p v) p.
Proof.
  unfold escapePipes, escapePipes_value. by rewrite escapeTimes_compose.
Qed.

(** A replacer that changes nothing the second time. *)
Lemma iter_idempotent p k s :
  (∀ s, p (p s) = p s) → Nat.iter (S k) p s = p s.
Proof.
  intros Hp. induction k as [|k IH]; [done|].
  change (Nat.iter (S (S k)) p s) with (p (Nat.iter (S k) p s)).
  by rewrite IH.
Qed.

Lemma escapeTimes_idempotent p k v :
  (∀ s, p (p s) = p s) → escapeTimes (S k) p v = escapeTimes 1 p v.
Proof.
  intros Hp. revert k. induction v using value_nested_ind; intros k;
    simpl; try done.
  - f_equal. exact (iter_idempotent p k s Hp).
  - f_equal. apply map_ext_Forall. eapply Forall_impl; [done|].
    intros x Hx; simpl.
    replace (S (k + S (k + 0))) with (S (S (2 * k))) by lia.
    by rewrite Hx, <- (Hx 1).
  - f_equal. apply map_ext_Forall. eapply Forall_impl; [done|].
    intros x Hx; simpl. by rewrite Hx.
Qed.

Lemma defaultPipeReplacer_no_pipe s :
  contains "|" (defaultPipeReplacer s) = false.
Proof. by apply contains_replaceAll. Qed.

Lemma defaultPipeReplacer_idempotent s :
  defaultPipeReplacer (defaultPipeReplacer s) = defaultPipeReplacer s.
Proof.
  apply replaceAll_absent, defaultPipeReplacer_no_pipe.
Qed.

Lemma defaultPipeReplacer_changes s :
  contains "|" s = true → defaultPipeReplacer s ≠ s.
Proof. by apply replaceAll_present. Qed.

Lemma defaultPipeReplacer_fixes s :
  contains "|" s = false → defaultPipeReplacer s = s.
Proof. by apply replaceAll_absent. Qed.

End Escaper.

(** C8 (amended). With the default pipe replacer escaping is idempotent: the
    replacement text [&#124;] holds no pipe, so an escaped string has none
    left, and escaping an already escaped string, or an already escaped
    nested value, gives it back unchanged. *)
Theorem default_escape_idempotent :
  (∀ s : string, contains "|" (escapePipes s defaultPipeReplacer) = false) ∧
  (∀ s : string,
     escapePipes (escapePipes s defaultPipeReplacer) defaultPipeReplacer
     = escapePipes s defaultPipeReplacer) ∧
  (∀ v : value,
     escapePipes (escapePipes v defaultPipeReplacer) defaultPipeReplacer
     = escapePipes v defaultPipeReplacer).
Proof.
  split; [|split].
  - intros s. apply defaultPipeReplacer_no_pipe.
  - intros s. apply defaultPipeReplacer_idempotent.
  - intros v. unfold escapePipes, escapePipes_value.
    rewrite escapeTimes_compose.
    apply (escapeTimes_idempotent _ 1), defaultPipeReplacer_idempotent.
Qed.

(** C8 as stated does not hold: no string with a pipe is changed by a
    second escape. *)
Lemma default_escape_never_double_escapes :
  ¬ ∃ s : string,
      contains "|" s = true ∧
      escapePipes (escapePipes s defaultPipeReplacer) defaultPipeReplacer
      ≠ escapePipes s defaultPipeReplacer.
Proof.
  intros (s & _ & Hne). apply Hne, defaultPipeReplacer_idempotent.
Qed.

(** ** The exception monad and indexed maps *)

Lemma bind_Ok_inv {C D} (m : result C) (h : C → result D) (d : D) :
  m ≫= h = Ok d → ∃ c, m = Ok c ∧ h c = Ok d.
Proof. destruct m as [c|e]; simpl; [eauto | done]. Qed.

Lemma mapM_Ok_Forall2 {A B} (f : A → result B) l k :
  mapM f l = Ok k → Forall2 (λ x y, f x = Ok y) l k.
Proof.
  revert k. induction l as [|x l IH]; intros k; simpl.
  - intros [= <-]. constructor.
  - intros (y & Hy & (k' & Hk' & [= <-])%bind_Ok_inv)%bind_Ok_inv.
    constructor; auto.
Qed.

Lemma Forall2_mapM_Ok {A B} (f : A → result B) l k :
  Forall2 (λ x y, f x = Ok y) l k → mapM f l = Ok k.
Proof.
  induction 1 as [|x y l k Hxy _ IH]; simpl; [done|].
  by rewrite Hxy; simpl; rewrite IH.
Qed.

Lemma mapM_result_ext {A B} (f g : A → result B) l :
  Forall (λ x, f x = g x) l → mapM f l = mapM g l.
Proof.
  induction 1 as [|x l Hx _ IH]; simpl; [done|]. by rewrite Hx, IH.
Qed.

Lemma mapM_result_fmap {A B C} (h : C → A) (f : A → result B) (l : list C) :
  mapM f (h <$> l) = mapM (f ∘ h) l.
Proof.
  induction l as [|x l IH]; [done|].
  change (mapM f (h <$> x :: l))
    with (f (h x) ≫= λ y, mapM f (h <$> l) ≫= λ k, mret (y :: k)).
  by rewrite IH.
Qed.

Lemma length_mapM_Ok {A B} (f : A → result B) l k : mapM f l = Ok k → length k = length l.
Proof. intros H%mapM_Ok_Forall2. symmetry. by eapply Forall2_length. Qed.

Lemma mapWithIndex_Ok {A B} (f : A → nat → result B) l k :
  mapWithIndex f l = Ok k →
  length k = length l ∧
  ∀ i x, l !! i = Some x → ∃ y, k !! i = Some y ∧ f x i = Ok y.
Proof.
  unfold mapWithIndex. intros H. split.
  - apply length_mapM_Ok in H. by rewrite length_imap in H.
  - intros i x Hx. apply mapM_Ok_Forall2 in H.
    destruct (Forall2_lookup_l _ _ _ i (i, x) H) as (y & Hy & Hf).
    + by rewrite list_lookup_imap, Hx.
    + eauto.
Qed.

Lemma mapWithIndex_pure {A B} (f : A → nat → result B) (g : nat → A → B) l :
  (∀ i x, l !! i = Some x → f x i = Ok (g i x)) →
  mapWithIndex f l = Ok (imap g l).
Proof.
  unfold mapWithIndex. intros H. apply Forall2_mapM_Ok.
  apply Forall2_same_length_lookup_2.
  - by rewrite !length_imap.
  - intros i [j x] y. rewrite !list_lookup_imap.
    destruct (l !! i) as [x'|] eqn:Hi; simpl; [|done].
    intros [= <- <-] [= <-]. by apply H.
Qed.

(** ** Padding *)

Lemma centerTarget_le (len w : nat) :
  len ≤ w → centerTarget len w = len + (w - len) / 2.
Proof.
  intros Hle. unfold centerTarget, ToLength, Math_floor.
  cbv [Qle_bool Qceiling Qfloor Qdiv Qplus Qminus Qmult Qinv Qopp inject_Z
       Qnum Qden].
  rewrite ?Z.mul_1_r, ?Pos.mul_1_l, ?Pos.mul_1_r, ?Z.div_1_r.
  replace (Z.of_nat len * 2 + (Z.of_nat w + - Z.of_nat len))%Z
    with (Z.of_nat (w - len) + Z.of_nat len * 2)%Z by lia.
  destruct (Z.leb_spec (0 * 2)%Z (Z.of_nat (w - len) + Z.of_nat len * 2)%Z);
    [|lia].
  rewrite Z.div_add by lia.
  change 2%Z with (Z.of_nat 2). rewrite <- Nat2Z.inj_div.
  generalize ((w - len) `div` 2). intros n. lia.
Qed.

Lemma padsLeftAligned_spec column :
  padsLeftAligned column = true ↔
  columnAlign column = None ∨ columnAlign column = Some "left"
  ∨ columnAlign column = Some "".
Proof.
  destruct column as [s|c]; simpl; [split; [by left | done]|].
  rewrite !orb_true_iff, !bool_decide_eq_true. tauto.
Qed.

Lemma alignIs_spec column a :
  alignIs column a = true ↔ columnAlign column = Some a.
Proof.
  destruct column as [s|c]; simpl; [done|]. by rewrite bool_decide_eq_true.
Qed.

Lemma padAlign_left t w column :
  columnAlign column = None ∨ columnAlign column = Some "left" →
  padAlign (RString t) (Some w) (Some column)
  = Ok (RString (t +:+ fill " " (w - String.length t))).
Proof.
  intros H. unfold padAlign.
  by rewrite (proj2 (padsLeftAligned_spec column)) by (destruct H; auto).
Qed.

Lemma padAlign_right t w column :
  columnAlign column = Some "right" →
  padAlign (RString t) (Some w) (Some column)
  = Ok (RString (fill " " (w - String.length t) +:+ t)).
Proof.
  intros H. unfold padAlign.
  destruct (padsLeftAligned column) eqn:Hl.
  { apply padsLeftAligned_spec in Hl. destruct Hl as [|[|]]; congruence. }
  destruct (alignIs column "center") eqn:Hc.
  { apply alignIs_spec in Hc. congruence. }
  by rewrite (proj2 (alignIs_spec column "right")).
Qed.

Lemma padAlign_center t w column :
  columnAlign column = Some "center" →
  padAlign (RString t) (Some w) (Some column)
  = Ok (RString (padEnd (padStart t (centerTarget (String.length t) w) " ")
                   w " ")).
Proof.
  intros H. unfold padAlign.
  destruct (padsLeftAligned column) eqn:Hl.
  { apply padsLeftAligned_spec in Hl. destruct Hl as [|[|]]; congruence. }
  by rewrite (proj2 (alignIs_spec column "center")).
Qed.

(** C5. For a cell text no longer than the width: a left-aligned, an
    unaligned or a bare-string column pads with spaces on the right up to
    the width; a right-aligned column pads on the left; a center-aligned
    column first pads on the left up to [|t| + floor((width - |t|) / 2)] and
    then on the right up to the width, so that the right side gets the extra
    space when the gap is odd. *)
Theorem padAlign_alignment (t : string) (width : nat) (column : Column) :
  String.length t ≤ width →
  let gap := width - String.length t in
  (columnAlign column = None ∨ columnAlign column = Some "left" →
   padAlign (RString t) (Some width) (Some column)
   = Ok (RString (t +:+ fill " " gap))) ∧
  (columnAlign column = Some "right" →
   padAlign (RString t) (Some width) (Some column)
   = Ok (RString (fill " " gap +:+ t))) ∧
  (columnAlign column = Some "center" →
   padAlign (RString t) (Some width) (Some column)
   = Ok (RString (padEnd (padStart t (String.length t + gap / 2) " ")
                    width " ")) ∧
   padEnd (padStart t (String.length t + gap / 2) " ") width " "
   = fill " " (gap / 2) +:+ t +:+ fill " " (gap - gap / 2) ∧
   gap / 2 ≤ gap - gap / 2 ≤ gap / 2 + 1).
Proof.
  intros Hle gap. split; [|split].
  - apply padAlign_left.
  - apply padAlign_right.
  - intros Hc. split; [|split].
    + rewrite (padAlign_center _ _ _ Hc). by rewrite centerTarget_le.
    + unfold padEnd, padStart.
      rewrite !length_append, length_fill, append_assoc.
      do 3 f_equal; lia.
    + assert (2 * (gap / 2) ≤ gap) by apply Nat.Div0.mul_div_le.
      assert (gap < 2 * S (gap / 2))
        by (apply Nat.mul_succ_div_gt; lia).
      lia.
Qed.

Lemma padAlign_alignment_witness :
  padAlign (RString "ab") (Some 5)
    (Some (ColObject (mkTableColumn "Mid" None (Some "center"))))
  = Ok (RString " ab  ").
Proof.
  pose proof (padAlign_alignment "ab" 5
                (ColObject (mkTableColumn "Mid" None (Some "center")))
                ltac:(simpl; lia)) as (_ & _ & H).
  destruct (H eq_refl) as (-> & _). reflexivity.
Defined.

(** ** The wrong kind of entry *)

(** C9. An entry without the [table] property is rejected with an error of
    its own, different from the one of the width computation; nothing is
    rendered and the entry is handed back as it came, not escaped. *)
Theorem tableRenderer_rejects_other_entries
    (renderEntries : list value → RenderOptions → rendered)
    (entry : TableEntry) (options : RenderOptions) :
  table entry = None →
  tableRenderer renderEntries entry options
  = (Throw (Error notTableMessage), entry) ∧
  Error notTableMessage ≠ Error multiLineMessage.
Proof.
  intros Hnone. unfold tableRenderer. rewrite Hnone.
  split; [done | by intros [=]].
Qed.

Lemma tableRenderer_rejects_other_entries_witness :
  tableRenderer plainRenderEntries boldEntry noOptions
  = (Throw (Error notTableMessage), boldEntry) ∧
  Error notTableMessage ≠ Error multiLineMessage.
Proof.
  apply (tableRenderer_rejects_other_entries plainRenderEntries boldEntry
           noOptions).
  reflexivity.
Defined.

(** ** The divider row *)

Lemma getLeftSideAlignmentCharacter_spec column :
  getLeftSideAlignmentCharacter column
  = if bool_decide (columnAlign column = Some "left"
                    ∨ columnAlign column = Some "center")
    then ":" else " ".
Proof.
  destruct column as [s|c]; simpl.
  - done.
  - by rewrite bool_decide_or.
Qed.

Lemma getRightSideAlignmentCharacter_spec column :
  getRightSideAlignmentCharacter column
  = if bool_decide (columnAlign column = Some "right"
                    ∨ columnAlign column = Some "center")
    then ":" else " ".
Proof.
  destruct column as [s|c]; simpl.
  - done.
  - by rewrite bool_decide_or.
Qed.

Lemma padStart_empty c n : padStart "" n c = fill c n.
Proof. unfold padStart. simpl. by rewrite Nat.sub_0_r, append_empty_r. Qed.

(** C2 (amended). The divider row is [|cell|...|cell|] with one cell per
    column. A cell is the run of [width] dashes with one character on each
    side: before the dashes a colon when the column is left- or
    center-aligned and a space otherwise, after the dashes a colon when the
    column is right- or center-aligned and a space otherwise. A bare-string
    or unaligned column therefore has a space on both sides, and every cell
    is [width + 2] characters long. *)
Theorem buildDividerRow_cells (cellWidths : list nat) (columns : list Column) :
  length cellWidths = length columns →
  ∃ cells : list string,
    buildDividerRow cellWidths columns = Ok ("|" +:+ join "|" cells +:+ "|") ∧
    length cells = length columns ∧
    ∀ i column width,
      columns !! i = Some column → cellWidths !! i = Some width →
      ∃ l r : string,
        cells !! i = Some (l +:+ fill "-" width +:+ r) ∧
        l = (if bool_decide (columnAlign column = Some "left"
                             ∨ columnAlign column = Some "center")
             then ":" else " ") ∧
        r = (if bool_decide (columnAlign column = Some "right"
                             ∨ columnAlign column = Some "center")
             then ":" else " ") ∧
        String.length (l +:+ fill "-" width +:+ r) = width + 2.
Proof.
  intros Hlen.
  set (g := λ (i : nat) (w : nat),
         match columns !! i with
         | Some column =>
             getLeftSideAlignmentCharacter column +:+ fill "-" w
             +:+ getRightSideAlignmentCharacter column
         | None => ""
         end).
  exists (imap g cellWidths). split; [|split].
  - unfold buildDividerRow.
    rewrite (mapWithIndex_pure _ g); [done|].
    intros i w Hw. unfold g.
    destruct (columns !! i) as [column|] eqn:Hc.
    + by rewrite padStart_empty.
    + apply lookup_lt_Some in Hw. apply lookup_ge_None in Hc. lia.
  - by rewrite length_imap.
  - intros i column width Hc Hw.
    eexists _, _. split; [|split; [|split]].
    + rewrite list_lookup_imap, Hw. simpl. unfold g. rewrite Hc.
      rewrite getLeftSideAlignmentCharacter_spec,
        getRightSideAlignmentCharacter_spec. done.
    + done.
    + done.
    + rewrite !length_append, length_fill.
      do 2 case_bool_decide; simpl; lia.
Qed.

Lemma buildDividerRow_cells_witness :
  ∃ cells : list string,
    buildDividerRow [4; 5]
      [ColString "Name"; ColObject (mkTableColumn "Cost" None (Some "right"))]
    = Ok ("|" +:+ join "|" cells +:+ "|") ∧
    length cells = 2 ∧
    ∀ i column width,
      [ColString "Name"; ColObject (mkTableColumn "Cost" None (Some "right"))]
        !! i = Some column →
      [4; 5] !! i = Some width →
      ∃ l r : string,
        cells !! i = Some (l +:+ fill "-" width +:+ r) ∧
        l = (if bool_decide (columnAlign column = Some "left"
                             ∨ columnAlign column = Some "center")
             then ":" else " ") ∧
        r = (if bool_decide (columnAlign column = Some "right"
                             ∨ columnAlign column = Some "center")
             then ":" else " ") ∧
        String.length (l +:+ fill "-" width +:+ r) = width + 2.
Proof.
  apply (buildDividerRow_cells [4; 5]
           [ColString "Name";
            ColObject (mkTableColumn "Cost" None (Some "right"))]).
  reflexivity.
Defined.

(** C2 as stated does not hold: for the two bare-string columns [Name] and
    [Age] of widths 4 and 3 the code emits [| ---- | --- |], with spaces
    around the dashes, and not [|----|---|]. *)
Lemma buildDividerRow_has_spaces :
  buildDividerRow [4; 3] [ColString "Name"; ColString "Age"]
  = Ok "| ---- | --- |" ∧
  specDividerRow [4; 3] [ColString "Name"; ColString "Age"] = "|----|---|" ∧
  buildDividerRow [4; 3] [ColString "Name"; ColString "Age"]
  ≠ Ok (specDividerRow [4; 3] [ColString "Name"; ColString "Age"]).
Proof. split; [|split]; [reflexivity | reflexivity | discriminate]. Qed.

(** ** Column widths *)

Section Widths.

Variable renderEntries : list value → RenderOptions → rendered.
Implicit Types (entry : TableEntry) (options : RenderOptions) (row : Row).

Lemma collectCellText_unfold entry options i column prev row :
  collectCellText renderEntries entry options i column prev row
  = if isDefined (cellValueAt row i column) then
      match renderCellText renderEntries (cellValueAt row i column) options
              (prefixCellValues entry) with
      | RString text => Ok (prev ++ [text])
      | _ => Throw (Error multiLineMessage)
      end
    else Ok prev.
Proof. unfold collectCellText. by destruct (cellValueAt row i column). Qed.

(** The texts collected for a column are those of the rows whose value in
    the column is defined, in row order. *)
Lemma reduceM_collectCellText entry options i column prev rows texts :
  reduceM (collectCellText renderEntries entry options i column) prev rows
  = Ok texts →
  ∃ new,
    texts = prev ++ new ∧
    Forall2 (λ row text,
               renderCellText renderEntries (cellValueAt row i column) options
                 (prefixCellValues entry) = RString text)
      (filter (λ row, isDefined (cellValueAt row i column) = true) rows) new.
Proof.
  revert prev. induction rows as [|row rows IH]; intros prev; simpl.
  - intros [= <-]. exists []. by rewrite app_nil_r.
  - intros (prev' & Hrow & Hrest)%bind_Ok_inv.
    rewrite collectCellText_unfold in Hrow.
    destruct (IH _ Hrest) as (new & -> & Hnew).
    destruct (isDefined (cellValueAt row i column)) eqn:Hdef.
    + destruct (renderCellText _ _ _ _) as [text| |] eqn:Htext; try done.
      injection Hrow as <-. exists (text :: new). split.
      * by rewrite <- app_assoc.
      * rewrite filter_cons_True by done. by constructor.
    + injection Hrow as <-. exists new. split; [done|].
      rewrite filter_cons_False; [done|]. by rewrite Hdef.
Qed.

(** The width computation throws its error exactly when some defined value
    of the column does not render to a string. *)
Lemma reduceM_collectCellText_throws entry options i column prev rows row :
  row ∈ rows →
  isDefined (cellValueAt row i column) = true →
  (∀ text,
     renderCellText renderEntries (cellValueAt row i column) options
       (prefixCellValues entry) ≠ RString text) →
  reduceM (collectCellText renderEntries entry options i column) prev rows
  = Throw (Error multiLineMessage).
Proof.
  intros Hin Hdef Hnot. revert prev.
  induction rows as [|row' rows IH]; intros prev; [by apply elem_of_nil in Hin|].
  simpl. rewrite collectCellText_unfold.
  destruct (isDefined (cellValueAt row' i column)) eqn:Hdef'.
  - destruct (renderCellText _ (cellValueAt row' i column) _ _) as [text| |]
      eqn:Htext; try done.
    simpl. apply elem_of_cons in Hin as [->|Hin]; [by destruct (Hnot text)|].
    by apply IH.
  - simpl. apply elem_of_cons in Hin as [->|Hin]; [congruence|]. by apply IH.
Qed.

Lemma fold_left_max lens init :
  fold_left (λ prev curr, Nat.max minColumnWidth (Nat.max prev curr)) lens init
  = match lens with
    | [] => init
    | _ => 3 `max` (init `max` max_list lens)
    end.
Proof.
  revert init. induction lens as [|x lens IH]; intros init; [done|].
  simpl. rewrite IH. unfold minColumnWidth.
  destruct lens; simpl; lia.
Qed.

Lemma columnWidth_Ok entry options t i column width :
  table entry = Some t → columns t !! i = Some column →
  columnWidth renderEntries entry options i = Ok width →
  ∃ texts,
    Forall2 (λ row text,
               renderCellText renderEntries (cellValueAt row i column) options
                 (prefixCellValues entry) = RString text)
      (filter (λ row, isDefined (cellValueAt row i column) = true) (rows t))
      texts ∧
    width = 3 `max` (String.length (getColumnName column)
                     `max` max_list (String.length <$> texts)).
Proof.
  intros Ht Hc. unfold columnWidth, tableOf. rewrite Ht. simpl. rewrite Hc.
  intros (texts & Htexts & [= <-])%bind_Ok_inv.
  apply reduceM_collectCellText in Htexts as (new & -> & Hnew).
  exists new. split; [done|].
  rewrite fold_left_max. simpl.
  replace (getColumnHeaderTextLength column)
    with (String.length (getColumnName column)) by by destruct column.
  unfold minColumnWidth. destruct (String.length <$> new); simpl; lia.
Qed.

Lemma computeCellWidths_Ok entry options t cellWidths :
  table entry = Some t →
  computeCellWidths renderEntries entry options = Ok cellWidths →
  length cellWidths = length (columns t) ∧
  ∀ i, i < length (columns t) →
    ∃ width, cellWidths !! i = Some width ∧
             columnWidth renderEntries entry options i = Ok width.
Proof.
  intros Ht. unfold computeCellWidths, tableOf. rewrite Ht. simpl.
  intros H. split.
  - apply length_mapM_Ok in H. by rewrite length_seq in H.
  - intros i Hi. apply mapM_Ok_Forall2 in H.
    destruct (Forall2_lookup_l _ _ _ i i H) as (width & Hw & Hcol).
    + by apply lookup_seq_lt.
    + eauto.
Qed.

End Widths.

(** C4. When the width computation succeeds, the width of column [i] is
    the largest of 3, the length of the column's display name, and the
    lengths of the rendered texts of the rows whose value in column [i] is
    defined; the texts correspond one to one, in order, to exactly those
    rows, so that a row with an undefined value adds no candidate. *)
Theorem computeCellWidths_is_max
    (renderEntries : list value → RenderOptions → rendered)
    (entry : TableEntry) (options : RenderOptions) (t : Table)
    (cellWidths : list nat) :
  table entry = Some t →
  computeCellWidths renderEntries entry options = Ok cellWidths →
  length cellWidths = length (columns t) ∧
  ∀ i column,
    columns t !! i = Some column →
    ∃ texts : list string,
      Forall2 (λ row text,
                 renderCellText renderEntries (cellValueAt row i column)
                   options (prefixCellValues entry) = RString text)
        (filter (λ row, isDefined (cellValueAt row i column) = true) (rows t))
        texts ∧
      cellWidths !! i
      = Some (3 `max` (String.length (getColumnName column)
                       `max` max_list (String.length <$> texts))).
Proof.
  intros Ht Hws.
  destruct (computeCellWidths_Ok _ _ _ _ _ Ht Hws) as [Hlen Hall].
  split; [done|]. intros i column Hc.
  destruct (Hall i) as (width & Hw & Hcol); [by eapply lookup_lt_Some|].
  destruct (columnWidth_Ok _ _ _ _ _ _ _ Ht Hc Hcol) as (texts & Htexts & ->).
  eauto.
Qed.

Lemma computeCellWidths_is_max_witness :
  length [4; 3] = 2 ∧
  ∀ i column,
    [ColString "Name"; ColString "Age"] !! i = Some column →
    ∃ texts : list string,
      Forall2 (λ row text,
                 renderCellText plainRenderEntries (cellValueAt row i column)
                   noOptions None = RString text)
        (filter (λ row, isDefined (cellValueAt row i column) = true)
           [RowObject {[ "Name" := VStr "Al" ]}])
        texts ∧
      [4; 3] !! i
      = Some (3 `max` (String.length (getColumnName column)
                       `max` max_list (String.length <$> texts))).
Proof.
  apply (computeCellWidths_is_max plainRenderEntries missingAgeEntry noOptions
           {| columns := [ColString "Name"; ColString "Age"];
              rows := [RowObject {[ "Name" := VStr "Al" ]}] |} [4; 3]).
  - reflexivity.
  - vm_compute. reflexivity.
Defined.

(** ** Data rows *)

Lemma plainRenderEntries_missing options prefixCellValues :
  rendersMissingAsEmpty plainRenderEntries options prefixCellValues.
Proof. by left. Qed.

Lemma rendersMissingAsEmpty_orEmpty renderEntries options prefixCellValues :
  rendersMissingAsEmpty renderEntries options prefixCellValues →
  orEmpty (renderCellText renderEntries VUndefined options prefixCellValues)
  = RString "".
Proof. by intros [->| ->]. Qed.

Lemma padAlign_blank width column :
  alignWellTyped column →
  padAlign (RString "") (Some width) (Some column)
  = Ok (RString (fill " " width)).
Proof.
  intros [H|[H|[H|H]]].
  - rewrite padAlign_left by auto. simpl. by rewrite Nat.sub_0_r.
  - rewrite padAlign_left by auto. simpl. by rewrite Nat.sub_0_r.
  - rewrite padAlign_center by done. simpl String.length.
    rewrite centerTarget_le by lia. rewrite padStart_empty.
    unfold padEnd. rewrite length_fill, <- fill_add. do 3 f_equal.
    assert (2 * (width / 2) ≤ width) by apply Nat.Div0.mul_div_le.
    rewrite Nat.sub_0_r. lia.
  - rewrite padAlign_right by done. simpl.
    by rewrite Nat.sub_0_r, append_empty_r.
Qed.

Section DataRows.

Variable renderEntries : list value → RenderOptions → rendered.
Implicit Types (entry : TableEntry) (options : RenderOptions) (row : Row).

Lemma dataRowCells_object entry t cellWidths columns options m cells :
  table entry = Some t →
  dataRowCells renderEntries entry cellWidths columns options (RowObject m)
  = Ok cells →
  length cells = length columns ∧
  ∀ i curr, columns !! i = Some curr →
    ∃ cell, cells !! i = Some cell ∧
      padAlign
        (orEmpty (renderCellText renderEntries
                    (default VUndefined (m !! getDataRowPropertyName curr))
                    options (prefixCellValues entry)))
        (cellWidths !! i) (Model.columns t !! i) = Ok cell.
Proof.
  intros Ht. unfold dataRowCells, tableOf. rewrite Ht. simpl.
  apply mapWithIndex_Ok.
Qed.

Lemma dataRowCells_array entry t cellWidths columns options r cells :
  table entry = Some t →
  dataRowCells renderEntries entry cellWidths columns options (RowArray r)
  = Ok cells →
  length cells = length r ∧
  ∀ i cell, r !! i = Some cell →
    ∃ padded, cells !! i = Some padded ∧
      padAlign (renderCellText renderEntries cell options
                  (prefixCellValues entry))
        (cellWidths !! i) (Model.columns t !! i) = Ok padded.
Proof.
  intros Ht. unfold dataRowCells, tableOf. rewrite Ht. simpl.
  apply mapWithIndex_Ok.
Qed.

End DataRows.

(** C6 as stated does not hold: the table with columns [A] and [B] and the
    positional row [["x"]] renders, and its data row has one cell, not two. *)
Lemma short_row_has_fewer_cells :
  (tableRenderer plainRenderEntries shortRowEntry noOptions).1
  = Ok {| markdown :=
            join newline ["| A   | B   |"; "| --- | --- |"; "| x   |"];
          blockLevel := true |} ∧
  dataRowCells plainRenderEntries shortRowEntry [3; 3]
    [ColString "A"; ColString "B"] noOptions (RowArray [VStr "x"])
  = Ok [RString "x  "] ∧
  length [RString "x  "] ≠ length [ColString "A"; ColString "B"].
Proof. split; [|split]; [by vm_compute | by vm_compute | by simpl]. Qed.

(** ** Lines of the rendered table *)

Lemma mapWithIndex_Forall {A B} (P : B → Prop) (f : A → nat → result B) l k :
  mapWithIndex f l = Ok k →
  (∀ i x y, l !! i = Some x → f x i = Ok y → P y) →
  Forall P k.
Proof.
  intros [Hlen Hall]%mapWithIndex_Ok HP. apply Forall_lookup_2. intros i y Hy.
  destruct (lookup_lt_is_Some_2 l i) as [x Hx].
  { rewrite <- Hlen. by eapply lookup_lt_Some. }
  destruct (Hall i x Hx) as (y' & Hy' & Hf).
  assert (y' = y) as -> by congruence. by eapply HP.
Qed.

Lemma singleLine_append s r :
  singleLine s → singleLine r → singleLine (s +:+ r).
Proof. unfold singleLine. intros Hs Hr. by rewrite contains_append, Hs, Hr. Qed.

Lemma singleLine_fill_space n : singleLine (fill " " n).
Proof. by apply contains_fill. Qed.

Lemma singleLine_join sep (ls : list string) :
  singleLine sep → Forall singleLine ls → singleLine (join sep ls).
Proof. apply contains_join. Qed.

Lemma stringMethod_Ok x method y :
  stringMethod x method = Ok y → ∃ s, x = RString s ∧ y = RString (method s).
Proof. destruct x; simpl; [|done..]. intros [= <-]. eauto. Qed.

Lemma joinText_orEmpty x : joinText (orEmpty x) = joinText x.
Proof. by destruct x. Qed.

(** Padding adds spaces only. *)
Lemma padAlign_singleLine x width column y :
  padAlign x width column = Ok y →
  singleLine (joinText x) → singleLine (joinText y).
Proof.
  unfold padAlign. destruct column as [column|]; [|done].
  destruct (padsLeftAligned column);
    [|destruct (alignIs column "center");
      [|destruct (alignIs column "right")]].
  - intros (s & -> & ->)%stringMethod_Ok Hs.
    apply singleLine_append; [done | apply singleLine_fill_space].
  - intros (s & -> & ->)%stringMethod_Ok Hs.
    apply singleLine_append; [|apply singleLine_fill_space].
    apply singleLine_append; [apply singleLine_fill_space | done].
  - intros (s & -> & ->)%stringMethod_Ok Hs.
    apply singleLine_append; [apply singleLine_fill_space | done].
  - by intros [= <-].
Qed.

Lemma buildDividerRow_singleLine cellWidths columns divider :
  buildDividerRow cellWidths columns = Ok divider → singleLine divider.
Proof.
  unfold buildDividerRow.
  intros (cells & Hcells & [= <-])%bind_Ok_inv.
  apply singleLine_append; [done|]. apply singleLine_append; [|done].
  apply singleLine_join; [done|].
  eapply mapWithIndex_Forall; [done|]. intros i w y _. simpl.
  destruct (columns !! i) as [column|]; [|done]. intros [= <-].
  rewrite padStart_empty.
  apply singleLine_append.
  { rewrite getLeftSideAlignmentCharacter_spec. by case_bool_decide. }
  apply singleLine_append; [by apply contains_fill|].
  rewrite getRightSideAlignmentCharacter_spec. by case_bool_decide.
Qed.

Lemma buildHeaderRow_singleLine entry t cellWidths columns header :
  table entry = Some t →
  buildHeaderRow entry cellWidths columns = Ok header →
  Forall (λ column, singleLine (getColumnName column)) (Model.columns t) →
  singleLine header.
Proof.
  intros Ht. unfold buildHeaderRow, tableOf. rewrite Ht. simpl.
  intros (cells & Hcells & [= <-])%bind_Ok_inv Hnames.
  apply singleLine_append; [done|]. apply singleLine_append; [|done].
  apply singleLine_join; [done|]. apply Forall_fmap.
  eapply mapWithIndex_Forall; [done|]. intros i column y Hc Hy. simpl.
  eapply padAlign_singleLine; [exact Hy|]. simpl.
  by eapply (Forall_lookup_1 _ _ _ _ Hnames).
Qed.

Section Lines.

Variable renderEntries : list value → RenderOptions → rendered.
Implicit Types (entry : TableEntry) (options : RenderOptions) (row : Row).

Lemma dataRowCells_singleLine entry t cellWidths options row cells :
  table entry = Some t →
  dataRowCells renderEntries entry cellWidths (columns t) options row
  = Ok cells →
  Forall (λ v, singleLine
                 (joinText (renderCellText renderEntries v options
                              (prefixCellValues entry))))
    (rowCellValues (columns t) row) →
  Forall (λ cell, singleLine (joinText cell)) cells.
Proof.
  intros Ht. unfold dataRowCells, tableOf. rewrite Ht. simpl.
  destruct row as [r|m]; simpl; intros Hcells Hvalues.
  - eapply mapWithIndex_Forall; [done|]. intros i cell y Hcell Hy. simpl in Hy.
    eapply padAlign_singleLine; [exact Hy|].
    by eapply (Forall_lookup_1 _ _ _ _ Hvalues).
  - eapply mapWithIndex_Forall; [done|]. intros i curr y Hcurr Hy. simpl in Hy.
    eapply padAlign_singleLine; [exact Hy|]. rewrite joinText_orEmpty.
    eapply (Forall_lookup_1 _ _ i _ Hvalues).
    by rewrite list_lookup_fmap, Hcurr.
Qed.

Lemma buildDataRows_Ok entry t cellWidths options dataRows :
  table entry = Some t →
  buildDataRows renderEntries entry cellWidths (columns t) options
  = Ok dataRows →
  Forall2 (λ row line,
             ∃ cells,
               dataRowCells renderEntries entry cellWidths (columns t) options
                 row = Ok cells ∧
               line = "| " +:+ join " | " (joinText <$> cells) +:+ " |")
    (rows t) dataRows.
Proof.
  intros Ht. unfold buildDataRows, tableOf. rewrite Ht. simpl.
  intros H%mapM_Ok_Forall2. eapply Forall2_impl; [done|].
  intros row line (cells & Hcells & [= <-])%bind_Ok_inv. eauto.
Qed.

Lemma assembleTable_Ok entry options t md :
  table entry = Some t →
  assembleTable renderEntries entry options = Ok md →
  ∃ cellWidths header divider dataRows,
    computeCellWidths renderEntries entry options = Ok cellWidths ∧
    buildHeaderRow entry cellWidths (columns t) = Ok header ∧
    buildDividerRow cellWidths (columns t) = Ok divider ∧
    buildDataRows renderEntries entry cellWidths (columns t) options
    = Ok dataRows ∧
    md = join newline (header :: divider :: dataRows).
Proof.
  intros Ht. unfold assembleTable, tableOf. rewrite Ht. simpl.
  intros (ws & Hws & (header & Hh & (divider & Hd &
            (dataRows & Hrows & [= <-])%bind_Ok_inv)%bind_Ok_inv)%bind_Ok_inv)
         %bind_Ok_inv.
  by exists ws, header, divider, dataRows.
Qed.

Lemma tableRenderer_table entry options t :
  table entry = Some t →
  tableRenderer renderEntries entry options
  = (let entry' :=
       escapePipes entry (default defaultPipeReplacer (pipeReplacer entry)) in
     (assembleTable renderEntries entry' options
        ≫= λ md, Ok {| markdown := md; blockLevel := true |},
      entry')).
Proof. intros Ht. unfold tableRenderer. by rewrite Ht. Qed.

Lemma escapePipes_table entry t p :
  table entry = Some t →
  table (escapePipes entry p) = Some (escapePipes t p) ∧
  prefixCellValues (escapePipes entry p) = prefixCellValues entry ∧
  length (rows (escapePipes t p)) = length (rows t) ∧
  length (columns (escapePipes t p)) = length (columns t).
Proof.
  intros Ht. unfold escapePipes at 1 2, escapePipes_TableEntry; simpl.
  rewrite Ht. repeat split.
  - by destruct (prefixCellValues entry).
  - unfold escapePipes, escapePipes_Table, escapePipes_array; simpl.
    by rewrite !length_fmap.
  - unfold escapePipes, escapePipes_Table, escapePipes_array; simpl.
    by rewrite !length_fmap.
Qed.

End Lines.

(** C3 (amended). The markdown of a rendered table is the newline-join of
    exactly [rows.length + 2] row strings: the header, the divider and one
    per row. Split on newline it has [rows.length + 2] lines whenever no
    column name and no rendered cell text of the escaped table contains a
    line break. *)
Theorem table_line_count
    (renderEntries : list value → RenderOptions → rendered)
    (entry : TableEntry) (options : RenderOptions) (t : Table)
    (result : RenderResult) :
  table entry = Some t →
  (tableRenderer renderEntries entry options).1 = Ok result →
  (∃ lines : list string,
     markdown result = join newline lines ∧
     length lines = length (rows t) + 2) ∧
  (singleLineTable renderEntries
     (tableRenderer renderEntries entry options).2 options →
   length (split newlineChar (markdown result)) = length (rows t) + 2).
Proof.
  intros Ht. rewrite (tableRenderer_table _ _ _ _ Ht). simpl.
  set (p := default defaultPipeReplacer (pipeReplacer entry)).
  intros (md & Hmd & [= <-])%bind_Ok_inv. simpl.
  destruct (escapePipes_table entry t p Ht) as (Ht' & Hpcv & Hrows & _).
  destruct (assembleTable_Ok _ _ _ _ _ Ht' Hmd)
    as (ws & header & divider & dataRows & Hws & Hh & Hd & Hdata & ->).
  pose proof (buildDataRows_Ok _ _ _ _ _ _ Ht' Hdata) as Hlines.
  assert (length dataRows = length (rows t)) as Hlen.
  { apply Forall2_length in Hlines. lia. }
  split.
  - eexists. split; [done|]. simpl. lia.
  - unfold singleLineTable. rewrite Ht'. intros [Hnames Hcells].
    unfold newline. rewrite split_join; [simpl; lia | done |].
    repeat apply Forall_cons_2.
    + by eapply buildHeaderRow_singleLine.
    + by eapply buildDividerRow_singleLine.
    + apply Forall_lookup_2. intros j line Hline.
      destruct (Forall2_lookup_r _ _ _ _ _ Hlines Hline)
        as (row & Hrow & cells & Hcs & ->).
      apply singleLine_append; [done|]. apply singleLine_append; [|done].
      apply singleLine_join; [done|]. apply Forall_fmap.
      eapply dataRowCells_singleLine; [done | exact Hcs |].
      by eapply (Forall_lookup_1 _ _ _ _ Hcells).
Qed.

Lemma table_line_count_witness :
  length
    (split newlineChar
       (join newline
          ["| Name | Age |"; "| ---- | --- |"; "| Al   | 30  |";
           "| Bo   | 7   |"]))
  = 2 + 2.
Proof.
  refine (proj2 (table_line_count plainRenderEntries nameAgeEntry noOptions
            {| columns := [ColString "Name"; ColString "Age"];
               rows := [RowObject {[ "Name" := VStr "Al"; "Age" := VStr "30" ]};
                        RowObject {[ "Name" := VStr "Bo"; "Age" := VStr "7" ]}] |}
            {| markdown :=
                 join newline
                   ["| Name | Age |"; "| ---- | --- |"; "| Al   | 30  |";
                    "| Bo   | 7   |"];
               blockLevel := true |} _ _) _).
  - reflexivity.
  - vm_compute. reflexivity.
  - vm_compute. split; repeat constructor.
Defined.

(** C3 as stated does not hold: a table with the one column named
    [a⏎b] and no rows renders, and its markdown splits into three lines, not
    two. *)
Lemma broken_header_adds_a_line :
  table brokenHeaderEntry
  = Some {| columns := [ColString ("a" +:+ newline +:+ "b")]; rows := [] |} ∧
  (tableRenderer plainRenderEntries brokenHeaderEntry noOptions).1
  = Ok {| markdown := "| a" +:+ newline +:+ "b |" +:+ newline +:+ "| --- |";
          blockLevel := true |} ∧
  length (split newlineChar
            ("| a" +:+ newline +:+ "b |" +:+ newline +:+ "| --- |"))
  ≠ length (@nil Row) + 2.
Proof. split; [|split]; [done | by vm_compute | by vm_compute]. Qed.

(** ** Cells that do not resolve to a single line *)

Lemma mapM_first_Throw {A B} (f : A → result B) (l : list A) (e : exn) :
  Forall (λ x, f x = Throw e ∨ ∃ y, f x = Ok y) l →
  Exists (λ x, f x = Throw e) l →
  mapM f l = Throw e.
Proof.
  induction 1 as [|x l Hx _ IH]; intros Hex; [by apply Exists_nil in Hex|].
  simpl. destruct Hx as [->|[y Hy]]; [done|]. rewrite Hy. simpl.
  apply Exists_cons in Hex as [Hex|Hex]; [congruence|]. by rewrite IH.
Qed.

Section Rejection.

Variable renderEntries : list value → RenderOptions → rendered.
Implicit Types (entry : TableEntry) (options : RenderOptions) (row : Row).

Lemma reduceM_collectCellText_cases entry options i column prev rows :
  reduceM (collectCellText renderEntries entry options i column) prev rows
  = Throw (Error multiLineMessage)
  ∨ ∃ texts,
      reduceM (collectCellText renderEntries entry options i column) prev rows
      = Ok texts.
Proof.
  revert prev. induction rows as [|row rows IH]; intros prev; simpl; [eauto|].
  rewrite collectCellText_unfold.
  destruct (isDefined _); [|apply IH].
  destruct (renderCellText _ _ _ _); simpl; [apply IH | by left..].
Qed.

Lemma columnWidth_cases entry options t i :
  table entry = Some t → i < length (columns t) →
  columnWidth renderEntries entry options i = Throw (Error multiLineMessage)
  ∨ ∃ w, columnWidth renderEntries entry options i = Ok w.
Proof.
  intros Ht Hi. unfold columnWidth, tableOf. rewrite Ht. simpl.
  destruct (lookup_lt_is_Some_2 _ _ Hi) as [column ->].
  destruct (reduceM_collectCellText_cases entry options i column [] (rows t))
    as [->|[texts ->]]; simpl; eauto.
Qed.

(** The part of the check that the code does make: a defined value that
    resolves to something that is not a string aborts the render during the
    width computation. *)
Lemma assembleTable_rejects_non_string entry options t i column row :
  table entry = Some t →
  columns t !! i = Some column →
  row ∈ rows t →
  isDefined (cellValueAt row i column) = true →
  (∀ text,
     renderCellText renderEntries (cellValueAt row i column) options
       (prefixCellValues entry) ≠ RString text) →
  computeCellWidths renderEntries entry options
  = Throw (Error multiLineMessage) ∧
  assembleTable renderEntries entry options = Throw (Error multiLineMessage).
Proof.
  intros Ht Hc Hrow Hdef Hnot.
  assert (computeCellWidths renderEntries entry options
          = Throw (Error multiLineMessage)) as Hws.
  { unfold computeCellWidths, tableOf. rewrite Ht. simpl.
    apply mapM_first_Throw.
    - apply Forall_forall. intros j Hj%elem_of_seq.
      apply (columnWidth_cases _ _ t); [done | lia].
    - apply Exists_exists. exists i. split.
      + apply elem_of_seq. apply lookup_lt_Some in Hc. lia.
      + unfold columnWidth, tableOf. rewrite Ht. simpl. rewrite Hc.
        by rewrite (reduceM_collectCellText_throws _ _ _ _ _ _ _ row). }
  split; [done|]. unfold assembleTable, tableOf. rewrite Ht. simpl.
  by rewrite Hws.
Qed.

End Rejection.

(** C1, on the input for which the code does not do what the claim says.
    The cell resolves to the two-line string [line1⏎line2]; the width
    computation accepts it, since a string of any content passes the
    [typeof result === 'string'] test, and the render returns a table whose
    data row is broken over two lines. *)
Theorem multi_line_cell_is_rendered :
  renderCellText plainRenderEntries (VStr ("line1" +:+ newline +:+ "line2"))
    noOptions None
  = RString ("line1" +:+ newline +:+ "line2") ∧
  contains newlineChar ("line1" +:+ newline +:+ "line2") = true ∧
  computeCellWidths plainRenderEntries multiLineEntry noOptions = Ok [11] ∧
  (tableRenderer plainRenderEntries multiLineEntry noOptions).1
  = Ok {| markdown :=
            join newline
              ["| A           |"; "| ----------- |";
               "| line1" +:+ newline +:+ "line2 |"];
          blockLevel := true |}.
Proof. repeat split; by vm_compute. Qed.

(** ** Escaped field keys *)

Lemma mapWithIndex_ext {A B} (f g : A → nat → result B) (l : list A) :
  (∀ i x, l !! i = Some x → f x i = g x i) →
  mapWithIndex f l = mapWithIndex g l.
Proof.
  intros H. unfold mapWithIndex. apply mapM_result_ext, Forall_lookup_2.
  intros i [j x]. rewrite list_lookup_imap.
  destruct (l !! i) as [x'|] eqn:Hi; simpl; [|done].
  intros [= <- <-]. by apply H.
Qed.

Lemma getDataRowPropertyName_escapePipes column p :
  getDataRowPropertyName (escapePipes column p)
  = p (getDataRowPropertyName column).
Proof. destruct column as [s|[n [f|] a]]; done. Qed.

Lemma field_escapePipes (tc : TableColumn) p :
  field (escapePipes tc p) = p <$> field tc.
Proof. done. Qed.

(** After the default escape no column reads a key with a pipe in it. *)
Lemma escaped_columns_key (t : Table) column :
  column ∈ columns (escapePipes t defaultPipeReplacer) →
  contains "|" (getDataRowPropertyName column) = false.
Proof.
  unfold escapePipes at 1, escapePipes_Table; simpl.
  unfold escapePipes at 1, escapePipes_array.
  intros (c & -> & _)%list_elem_of_fmap.
  rewrite getDataRowPropertyName_escapePipes.
  apply defaultPipeReplacer_no_pipe.
Qed.

Lemma escapePipes_withoutKey key row p :
  escapePipes (withoutKey key row) p = withoutKey key (escapePipes row p).
Proof.
  destruct row as [r|m]; [done|].
  unfold escapePipes, escapePipes_Row, withoutKey. f_equal.
  unfold escapePipes, escapePipes_gmap. by rewrite fmap_delete.
Qed.

Lemma escapePipes_withoutKeyInRows key entry p :
  escapePipes (withoutKeyInRows key entry) p
  = withoutKeyInRows key (escapePipes entry p).
Proof.
  destruct entry as [[t|] a r pcv o]; [|done].
  cbv [withoutKeyInRows escapePipes escapePipes_TableEntry escapePipes_option
       escapePipes_Table table append pipeReplacer prefixCellValues others
       rows columns fmap option_fmap option_map].
  do 3 f_equal. cbv [escapePipes_array].
  rewrite <- !list_fmap_compose. apply list_fmap_ext. intros _ row _. simpl.
  by rewrite !escapePipes_withoutKey.
Qed.

Section UnreadKeys.

Variable renderEntries : list value → RenderOptions → rendered.
Implicit Types (entry : TableEntry) (options : RenderOptions) (row : Row).

Lemma cellValueAt_withoutKey key row i column :
  getDataRowPropertyName column ≠ key →
  cellValueAt (withoutKey key row) i column = cellValueAt row i column.
Proof.
  intros Hne. destruct row as [r|m]; [done|]. simpl.
  by rewrite lookup_delete_ne.
Qed.

Lemma reduceM_collectCellText_withoutKey key entry options i column prev rows :
  getDataRowPropertyName column ≠ key →
  reduceM (collectCellText renderEntries (withoutKeyInRows key entry) options
             i column) prev (withoutKey key <$> rows)
  = reduceM (collectCellText renderEntries entry options i column) prev rows.
Proof.
  intros Hne. revert prev.
  induction rows as [|row rows IH]; intros prev; [done|].
  csimpl. rewrite !collectCellText_unfold, cellValueAt_withoutKey by done.
  simpl. destruct (isDefined _); [|apply IH].
  destruct (renderCellText _ _ _ _); simpl; [apply IH | done..].
Qed.

Lemma dataRowCells_withoutKey key entry t cellWidths options row :
  table entry = Some t →
  (∀ column, column ∈ columns t → getDataRowPropertyName column ≠ key) →
  dataRowCells renderEntries (withoutKeyInRows key entry) cellWidths
    (columns t) options (withoutKey key row)
  = dataRowCells renderEntries entry cellWidths (columns t) options row.
Proof.
  intros Ht Hkeys. unfold dataRowCells, tableOf, withoutKeyInRows. simpl.
  rewrite Ht. simpl. destruct row as [r|m]; simpl; [done|].
  apply mapWithIndex_ext. intros i curr Hcurr.
  rewrite lookup_delete_ne; [done|]. symmetry.
  apply not_eq_sym, not_eq_sym, Hkeys. by eapply list_elem_of_lookup_2.
Qed.

(** Removing from the mapping rows a key that no column reads does not
    change what is rendered. *)
Lemma assembleTable_withoutKey key entry options t :
  table entry = Some t →
  (∀ column, column ∈ columns t → getDataRowPropertyName column ≠ key) →
  assembleTable renderEntries (withoutKeyInRows key entry) options
  = assembleTable renderEntries entry options.
Proof.
  intros Ht Hkeys.
  assert (computeCellWidths renderEntries (withoutKeyInRows key entry) options
          = computeCellWidths renderEntries entry options) as Hws.
  { unfold computeCellWidths, tableOf, withoutKeyInRows. simpl.
    rewrite Ht. simpl. apply mapM_result_ext, Forall_forall. intros i _.
    unfold columnWidth, tableOf. simpl. rewrite Ht. simpl.
    destruct (columns t !! i) as [column|] eqn:Hc; [|done].
    pose proof (reduceM_collectCellText_withoutKey key entry options i column
                  [] (rows t)) as Hred.
    unfold withoutKeyInRows in Hred. rewrite Ht in Hred. simpl in Hred.
    rewrite Hred; [done|]. eapply Hkeys, list_elem_of_lookup_2, Hc. }
  assert (∀ ws,
            buildDataRows renderEntries (withoutKeyInRows key entry) ws
              (columns t) options
            = buildDataRows renderEntries entry ws (columns t) options)
    as Hdata.
  { intros ws. unfold buildDataRows, tableOf.
    replace (table (withoutKeyInRows key entry))
      with (Some {| columns := columns t; rows := withoutKey key <$> rows t |})
      by (unfold withoutKeyInRows; simpl; by rewrite Ht).
    rewrite Ht. simpl. rewrite mapM_result_fmap.
    apply mapM_result_ext, Forall_forall. intros row _. simpl.
    by rewrite (dataRowCells_withoutKey key entry t). }
  unfold assembleTable. rewrite Hws.
  unfold tableOf.
  replace (table (withoutKeyInRows key entry))
    with (Some {| columns := columns t; rows := withoutKey key <$> rows t |})
    by (unfold withoutKeyInRows; simpl; by rewrite Ht).
  rewrite Ht. simpl.
  destruct (computeCellWidths renderEntries entry options) as [ws|e];
    [|done].
  simpl. rewrite Hdata.
  replace (buildHeaderRow (withoutKeyInRows key entry) ws (columns t))
    with (buildHeaderRow entry ws (columns t)); [done|].
  unfold buildHeaderRow, tableOf, withoutKeyInRows. simpl. by rewrite Ht.
Qed.

End UnreadKeys.

(** Whatever the replacer, the escape reaches the [append] string and the
    three strings of a structured column; the column sits in an array and
    is therefore visited twice. *)
Lemma escapePipes_reaches_append_and_field
    (entry : TableEntry) (t : Table) (p : string → string) (i : nat)
    (tc : TableColumn) :
  table entry = Some t →
  columns t !! i = Some (ColObject tc) →
  append (escapePipes entry p) = p <$> append entry ∧
  ∃ t',
    table (escapePipes entry p) = Some t' ∧
    columns t' !! i
    = Some (ColObject {| name := p (p (name tc));
                         field := (p ∘ p) <$> field tc;
                         align := (p ∘ p) <$> align tc |}).
Proof.
  intros Ht Hc. split; [done|].
  destruct (escapePipes_table entry t p Ht) as (Ht' & _).
  exists (escapePipes t p). split; [done|].
  unfold escapePipes at 1, escapePipes_Table; simpl.
  unfold escapePipes at 1, escapePipes_array.
  rewrite !list_lookup_fmap, Hc. by destruct tc as [n [f|] [a|]].
Qed.

(** The same input evaluated: the value stored under [a|b] does not reach
    the table. *)
Example pipe_in_field_key_example :
  (getTableMarkdown plainRenderEntries pipeFieldEntry noOptions).1
  = Ok (join newline ["| Key |"; "| --- |"; "|     |"]).
Proof. by vm_compute. Qed.

(** * Further properties *)

(** ** More on strings *)

Lemma join_cons_cons sep (x y : string) (ls : list string) :
  join sep (x :: y :: ls) = x +:+ sep +:+ join sep (y :: ls).
Proof. reflexivity. Qed.

Lemma join_String a sep (x : string) (ls : list string) :
  join sep (String a x :: ls) = String a (join sep (x :: ls)).
Proof. destruct ls; reflexivity. Qed.

Lemma split_nonempty c s : split c s ≠ [].
Proof.
  destruct s as [|a s]; simpl; [done|].
  destruct (Ascii.eqb a c); [done|]. by destruct (split c s).
Qed.

Lemma join_split c s : join (String c "") (split c s) = s.
Proof.
  induction s as [|a s IH]; [done|]. simpl.
  destruct (Ascii.eqb_spec a c) as [->|Hne].
  - pose proof (split_nonempty c s) as Hne.
    destruct (split c s) as [|x xs] eqn:Hs; [done|].
    rewrite join_cons_cons, IH. reflexivity.
  - pose proof (split_nonempty c s) as Hne'.
    destruct (split c s) as [|x xs] eqn:Hs; [done|].
    by rewrite join_String, IH.
Qed.

Lemma split_singleLine c s : Forall (λ line, contains c line = false) (split c s).
Proof.
  induction s as [|a s IH]; simpl; [by repeat constructor|].
  destruct (Ascii.eqb a c) eqn:Ha; [by constructor|].
  destruct (split c s) as [|x xs]; [by repeat constructor; simpl; rewrite Ha|].
  apply Forall_cons in IH as [Hx Hxs]. constructor; [|done].
  simpl. by rewrite Ha, Hx.
Qed.

(** Prefixing the first line and every separator is prefixing every line. *)
Lemma join_prefixed p sep (ls : list string) :
  ls ≠ [] →
  p +:+ join (sep +:+ p) ls = join sep ((λ line, p +:+ line) <$> ls).
Proof.
  intros Hne. induction ls as [|x ls IH]; [done|].
  destruct ls as [|y ls]; [done|].
  rewrite join_cons_cons. change ((λ line, p +:+ line) <$> x :: y :: ls)
    with ((p +:+ x) :: ((λ line, p +:+ line) <$> y :: ls)).
  change ((λ line, p +:+ line) <$> y :: ls)
    with ((p +:+ y) :: ((λ line, p +:+ line) <$> ls)) at 1.
  rewrite join_cons_cons.
  change ((p +:+ y) :: ((λ line, p +:+ line) <$> ls))
    with ((λ line, p +:+ line) <$> y :: ls).
  rewrite <- IH by done. by rewrite !append_assoc.
Qed.

Lemma length_join sep (ls : list string) :
  String.length (join sep ls)
  = sum_list (String.length <$> ls) + String.length sep * (length ls - 1).
Proof.
  induction ls as [|x ls IH]; [simpl; lia|].
  destruct ls as [|y ls]; [simpl; lia|].
  rewrite join_cons_cons, !length_append, IH. csimpl. lia.
Qed.

(** ** The code block renderer *)

(** X1. A fenced code block given as one string is the opening fence with
    the language, a line break, the code exactly as given, a line break and
    the closing fence; the line splitting and joining in between changes
    nothing. *)
Theorem codeblock_fenced_verbatim
    (entry : CodeBlockEntry) (options : DataDrivenMarkdownOptions)
    (code : string) :
  codeblock entry = Some (CodeString code) →
  truthyFencing (orElse (useCodeblockFencing options) (fenced entry)) = true →
  codeblockRenderer entry options
  = Ok (getCodeFenceOpen (orElse (useCodeblockFencing options) (fenced entry))
          (language entry)
        +:+ newline +:+ code +:+ newline
        +:+ getCodeFenceClose entry options).
Proof.
  intros Hcode Hfenced. unfold codeblockRenderer. rewrite Hcode, Hfenced.
  rewrite append_empty_r. change ("" +:+ ?x) with x.
  unfold newline at 2. rewrite join_split. by rewrite !append_assoc.
Qed.

Lemma codeblock_fenced_verbatim_witness :
  codeblockRenderer
    {| codeblock := Some (CodeString ("let x;" +:+ newline +:+ "x = 1;"));
       fenced := Some (FenceBool true); language := Some "js" |}
    {| useCodeblockFencing := None |}
  = Ok ("```js" +:+ newline +:+ ("let x;" +:+ newline +:+ "x = 1;")
        +:+ newline +:+ "```").
Proof.
  apply (codeblock_fenced_verbatim
           {| codeblock := Some (CodeString ("let x;" +:+ newline +:+ "x = 1;"));
              fenced := Some (FenceBool true); language := Some "js" |}
           {| useCodeblockFencing := None |});
    reflexivity.
Defined.

(** X2. A code block that is not fenced is indented: split on line breaks,
    its output has the lines of the code, in order, each behind four
    spaces, and the same number of lines. *)
Theorem codeblock_indented_lines
    (entry : CodeBlockEntry) (options : DataDrivenMarkdownOptions)
    (code : string) :
  codeblock entry = Some (CodeString code) →
  truthyFencing (orElse (useCodeblockFencing options) (fenced entry)) = false →
  ∃ output,
    codeblockRenderer entry options = Ok output ∧
    split newlineChar output
    = (λ line, "    " +:+ line) <$> split newlineChar code ∧
    length (split newlineChar output) = length (split newlineChar code).
Proof.
  intros Hcode Hfenced. unfold codeblockRenderer. rewrite Hcode, Hfenced.
  eexists. split; [done|].
  change ("" +:+ ?x) with x. rewrite append_empty_r.
  rewrite join_prefixed by apply split_nonempty.
  assert (split newlineChar
            (join newline ((λ line, "    " +:+ line) <$> split newlineChar code))
          = (λ line, "    " +:+ line) <$> split newlineChar code) as ->.
  { apply split_join.
    - pose proof (split_nonempty newlineChar code). by destruct (split _ code).
    - apply Forall_fmap. eapply Forall_impl; [apply split_singleLine|].
      intros line Hline. simpl. by rewrite contains_append, Hline. }
  split; [done|]. by rewrite length_fmap.
Qed.

Lemma codeblock_indented_lines_witness :
  ∃ output,
    codeblockRenderer
      {| codeblock := Some (CodeString ("a" +:+ newline +:+ "b"));
         fenced := None; language := None |}
      {| useCodeblockFencing := Some (FenceBool false) |}
    = Ok output ∧
    split newlineChar output
    = (λ line, "    " +:+ line)
      <$> split newlineChar ("a" +:+ newline +:+ "b") ∧
    length (split newlineChar output)
    = length (split newlineChar ("a" +:+ newline +:+ "b")).
Proof.
  apply (codeblock_indented_lines
           {| codeblock := Some (CodeString ("a" +:+ newline +:+ "b"));
              fenced := None; language := None |}
           {| useCodeblockFencing := Some (FenceBool false) |});
    reflexivity.
Defined.

(** X3. The two ways of giving the code agree: a non-empty list of lines
    without line breaks renders exactly as the single string that joins
    them with line breaks, fenced or not. *)
Theorem codeblock_string_and_lines_agree
    (lines : list string) (fencedAs : option Fencing)
    (lang : option string) (options : DataDrivenMarkdownOptions) :
  lines ≠ [] →
  Forall singleLine lines →
  codeblockRenderer
    {| codeblock := Some (CodeString (join newline lines));
       fenced := fencedAs; language := lang |} options
  = codeblockRenderer
      {| codeblock := Some (CodeLines lines);
         fenced := fencedAs; language := lang |} options.
Proof.
  intros Hne Hlines. unfold codeblockRenderer. simpl.
  unfold newline at 2 7. rewrite split_join by done.
  by rewrite join_prefixed by done.
Qed.

Lemma codeblock_string_and_lines_agree_witness :
  codeblockRenderer
    {| codeblock := Some (CodeString (join newline ["a"; "b"]));
       fenced := None; language := None |}
    {| useCodeblockFencing := None |}
  = codeblockRenderer
      {| codeblock := Some (CodeLines ["a"; "b"]);
         fenced := None; language := None |}
      {| useCodeblockFencing := None |}.
Proof.
  apply (codeblock_string_and_lines_agree ["a"; "b"] None None
           {| useCodeblockFencing := None |}).
  - done.
  - by repeat constructor.
Defined.

(** X4. The opening fence takes its character from the render options
    first and from the entry second; the closing fence looks at the entry
    first and at the options second. The two fences are made of the same
    character exactly when one of the two settings is absent or both agree
    on the tilde; when both are given and only one of them is the tilde, the
    block is closed with another character than it was opened with. *)
Theorem codeblock_fences_agree_iff
    (entry : CodeBlockEntry) (options : DataDrivenMarkdownOptions) :
  getCodeFenceClose entry options
  = getCodeFenceOpen (orElse (useCodeblockFencing options) (fenced entry)) None
  ↔ useCodeblockFencing options = None ∨ fenced entry = None
    ∨ isTilde (useCodeblockFencing options) = isTilde (fenced entry).
Proof.
  destruct entry as [code [[b| |]|] lang], options as [[[b'| |]|]];
    vm_compute; split; intros H; try done; try tauto;
    try (destruct H as [H|[H|H]]; discriminate).
Qed.

(** The options ask for tildes and the entry for a fence of its own: the
    block opens with tildes and closes with backticks. *)
Example codeblock_fence_mismatch :
  codeblockRenderer
    {| codeblock := Some (CodeString "code");
       fenced := Some (FenceBool true); language := None |}
    {| useCodeblockFencing := Some FenceTilde |}
  = Ok ("~~~" +:+ newline +:+ "code" +:+ newline +:+ "```").
Proof. reflexivity. Qed.

(** ** More on the escaper *)

Lemma length_defaultPipeReplacer s :
  String.length (defaultPipeReplacer s)
  = String.length s + 5 * occurrences "|" s.
Proof.
  unfold defaultPipeReplacer. induction s as [|a s IH]; [done|].
  cbn [replaceAll occurrences]. destruct (Ascii.eqb a "|").
  - rewrite length_append, IH. simpl. lia.
  - simpl. rewrite IH. lia.
Qed.

Lemma occurrences_contains c s : occurrences c s = 0 ↔ contains c s = false.
Proof.
  induction s as [|a s IH]; simpl; [done|].
  destruct (Ascii.eqb a c); simpl; [split; [lia | done] | done].
Qed.

(** X5. The default replacer makes a string longer by five characters for
    every pipe in it (one character becomes the six of [&#124;]), and leaves
    a string of the same length only if it had no pipe. *)
Theorem defaultPipeReplacer_length (s : string) :
  String.length (defaultPipeReplacer s)
  = String.length s + 5 * occurrences "|" s ∧
  (String.length (defaultPipeReplacer s) = String.length s
   ↔ contains "|" s = false).
Proof.
  split; [apply length_defaultPipeReplacer|].
  rewrite length_defaultPipeReplacer, <- occurrences_contains. lia.
Qed.

Lemma escapeTimes_pipeFree k v :
  pipeFree (escapeTimes (S k) defaultPipeReplacer v) = true.
Proof.
  revert k. induction v as [| | | |s|items IH|props IH]
    using value_nested_ind; intros k; try done.
  - cbn [escapeTimes pipeFree].
    change (Nat.iter (S k) defaultPipeReplacer s)
      with (defaultPipeReplacer (Nat.iter k defaultPipeReplacer s)).
    by rewrite defaultPipeReplacer_no_pipe.
  - cbn [escapeTimes pipeFree]. apply forallb_forall.
    intros x (y & <- & Hy)%in_map_iff.
    apply list_elem_of_In in Hy.
    rewrite Forall_forall in IH.
    replace (2 * S k) with (S (S (2 * k))) by lia. by apply IH.
  - cbn [escapeTimes pipeFree]. apply forallb_forall.
    intros x (y & <- & Hy)%in_map_iff.
    apply list_elem_of_In in Hy.
    rewrite Forall_forall in IH. simpl. by apply IH.
Qed.

Lemma escapeTimes_fixes_pipeFree k v :
  pipeFree v = true → escapeTimes k defaultPipeReplacer v = v.
Proof.
  revert k. induction v as [| | | |s|items IH|props IH]
    using value_nested_ind; intros k; try done.
  - cbn [escapeTimes pipeFree]. intros Hs%negb_true_iff. f_equal.
    induction k as [|k IHk]; [done|]. simpl. rewrite IHk.
    by apply defaultPipeReplacer_fixes.
  - cbn [escapeTimes pipeFree]. intros Hall. f_equal.
    rewrite forallb_forall in Hall. rewrite Forall_forall in IH.
    rewrite <- (map_id items) at 2. apply map_ext_in.
    intros x Hx. apply IH; [by apply list_elem_of_In | by apply Hall].
  - cbn [escapeTimes pipeFree]. intros Hall. f_equal.
    rewrite forallb_forall in Hall. rewrite Forall_forall in IH.
    rewrite <- (map_id props) at 2. apply map_ext_in.
    intros [key x] Hx. simpl. f_equal.
    apply (IH (key, x)); [by apply list_elem_of_In | by apply (Hall _ Hx)].
Qed.

(** X6. After the default escape no string anywhere in a cell value has a
    pipe left, however deep it sits in nested arrays and objects. *)
Theorem default_escape_removes_pipes (v : value) :
  pipeFree (escapePipes v defaultPipeReplacer) = true.
Proof. apply (escapeTimes_pipeFree 0). Qed.

(** X7. The default escape leaves alone a cell value that has no pipe in
    any of its strings: only pipes are rewritten. *)
Theorem default_escape_fixes_pipe_free (v : value) :
  pipeFree v = true → escapePipes v defaultPipeReplacer = v.
Proof. apply (escapeTimes_fixes_pipeFree 1). Qed.

Lemma default_escape_fixes_pipe_free_witness :
  escapePipes
    (VObj [("bold", VArr [VStr "a & b"; VNum 3; VNull])]) defaultPipeReplacer
  = VObj [("bold", VArr [VStr "a & b"; VNum 3; VNull])].
Proof.
  apply (default_escape_fixes_pipe_free
           (VObj [("bold", VArr [VStr "a & b"; VNum 3; VNull])])).
  reflexivity.
Defined.

(** X8. How often the replacer runs over a string depends on where the
    string sits, because every array is walked twice: once over the
    [append] string, twice over a bare-string column name and over a string
    cell of a mapping row (one array above them), and four times over a
    string cell of a positional row (two arrays above it). *)
Theorem escape_passes_by_position
    (entry : TableEntry) (t : Table) (p : string → string) :
  table entry = Some t →
  ∃ t',
    table (escapePipes entry p) = Some t' ∧
    append (escapePipes entry p) = p <$> append entry ∧
    (∀ i s, columns t !! i = Some (ColString s) →
            columns t' !! i = Some (ColString (p (p s)))) ∧
    (∀ j m key s,
       rows t !! j = Some (RowObject m) → m !! key = Some (VStr s) →
       ∃ m', rows t' !! j = Some (RowObject m') ∧
             m' !! key = Some (VStr (p (p s)))) ∧
    (∀ j r k s,
       rows t !! j = Some (RowArray r) → r !! k = Some (VStr s) →
       ∃ r', rows t' !! j = Some (RowArray r') ∧
             r' !! k = Some (VStr (p (p (p (p s)))))).
Proof.
  intros Ht. destruct (escapePipes_table entry t p Ht) as (Ht' & _).
  exists (escapePipes t p). split; [done|]. split; [done|].
  split; [|split].
  - intros i s Hc.
    unfold escapePipes at 1, escapePipes_Table; simpl.
    unfold escapePipes at 1, escapePipes_array.
    by rewrite !list_lookup_fmap, Hc.
  - intros j m key s Hm Hs.
    exists (escapePipes (escapePipes m p) p). split.
    + unfold escapePipes at 1, escapePipes_Table; simpl.
      unfold escapePipes at 1, escapePipes_array.
      by rewrite !list_lookup_fmap, Hm.
    + unfold escapePipes at 1 2, escapePipes_gmap.
      by rewrite !lookup_fmap, Hs.
  - intros j r k s Hr Hs.
    exists (escapePipes (escapePipes r p) p). split.
    + unfold escapePipes at 1, escapePipes_Table; simpl.
      unfold escapePipes at 1, escapePipes_array.
      by rewrite !list_lookup_fmap, Hr.
    + unfold escapePipes at 1 2, escapePipes_array.
      by rewrite !list_lookup_fmap, Hs.
Qed.

Lemma escape_passes_by_position_witness :
  ∃ t',
    table (escapePipes
             (tableEntry [ColString "a|b"] [RowArray [VStr "c|d"]])
             backslashReplacer) = Some t' ∧
    append (escapePipes
              (tableEntry [ColString "a|b"] [RowArray [VStr "c|d"]])
              backslashReplacer) = backslashReplacer <$> None ∧
    (∀ i s, [ColString "a|b"] !! i = Some (ColString s) →
            columns t' !! i
            = Some (ColString (backslashReplacer (backslashReplacer s)))) ∧
    (∀ j (m : gmap string value) key s,
       [RowArray [VStr "c|d"]] !! j = Some (RowObject m) →
       m !! key = Some (VStr s) →
       ∃ m', rows t' !! j = Some (RowObject m') ∧
             m' !! key
             = Some (VStr (backslashReplacer (backslashReplacer s)))) ∧
    (∀ j r k s,
       [RowArray [VStr "c|d"]] !! j = Some (RowArray r) →
       r !! k = Some (VStr s) →
       ∃ r', rows t' !! j = Some (RowArray r') ∧
             r' !! k
             = Some (VStr (backslashReplacer
                             (backslashReplacer
                                (backslashReplacer (backslashReplacer s)))))).
Proof.
  apply (escape_passes_by_position
           (tableEntry [ColString "a|b"] [RowArray [VStr "c|d"]])
           {| columns := [ColString "a|b"]; rows := [RowArray [VStr "c|d"]] |}
           backslashReplacer).
  reflexivity.
Defined.

(** With a replacer that is not idempotent the passes show: the cell of a
    positional row comes out behind four backslashes, not one. *)
Example escape_passes_show :
  (tableRenderer plainRenderEntries
     {| table := Some {| columns := [ColString "Name"];
                         rows := [RowArray [VStr "a|b"]] |};
        append := None; pipeReplacer := Some backslashReplacer;
        prefixCellValues := None; others := [] |} noOptions).1
  = Ok {| markdown :=
            join newline ["| Name    |"; "| ------- |"; "| a\\\\|b |"];
          blockLevel := true |}.
Proof. by vm_compute. Qed.

(** ** More on padding *)

Lemma centerTarget_eq (len w : nat) : centerTarget len w = (len + w) / 2.
Proof.
  unfold centerTarget, ToLength, Math_floor.
  cbv [Qle_bool Qceiling Qfloor Qdiv Qplus Qminus Qmult Qinv Qopp inject_Z
       Qnum Qden].
  rewrite ?Z.mul_1_r, ?Pos.mul_1_l, ?Pos.mul_1_r, ?Z.div_1_r.
  replace (Z.of_nat len * 2 + (Z.of_nat w + - Z.of_nat len))%Z
    with (Z.of_nat (len + w))%Z by lia.
  destruct (Z.leb_spec (0 * 2)%Z (Z.of_nat (len + w))); [|lia].
  change 2%Z with (Z.of_nat 2). rewrite <- Nat2Z.inj_div.
  apply Nat2Z.id.
Qed.

(** Padding a string under a well-typed alignment: the result is a string
    of length [max width |t|], and [t] itself when it fills the width. *)
Lemma padAlign_wellTyped t w column :
  alignWellTyped column →
  ∃ t',
    padAlign (RString t) (Some w) (Some column) = Ok (RString t') ∧
    String.length t' = w `max` String.length t ∧
    (w ≤ String.length t → t' = t).
Proof.
  intros [H|[H|[H|H]]].
  - eexists. split; [by apply padAlign_left; auto|].
    rewrite length_append, length_fill. split; [lia|]. intros Hle.
    replace (w - String.length t) with 0 by lia. apply append_empty_r.
  - eexists. split; [by apply padAlign_left; auto|].
    rewrite length_append, length_fill. split; [lia|]. intros Hle.
    replace (w - String.length t) with 0 by lia. apply append_empty_r.
  - eexists. split; [by apply padAlign_center|].
    rewrite centerTarget_eq. unfold padEnd, padStart.
    rewrite !length_append, !length_fill.
    assert (2 * ((String.length t + w) / 2) ≤ String.length t + w)
      by apply Nat.Div0.mul_div_le.
    split; [lia|]. intros Hle.
    replace ((String.length t + w) / 2 - String.length t) with 0 by lia.
    simpl. replace (w - String.length t) with 0 by lia.
    apply append_empty_r.
  - eexists. split; [by apply padAlign_right|].
    rewrite length_append, length_fill. split; [lia|]. intros Hle.
    by replace (w - String.length t) with 0 by lia.
Qed.

(** X9. Under a well-typed alignment padding never cuts a text and never
    overshoots: the padded cell is [max(width, |t|)] characters long, so it
    is exactly as wide as the column when the text fits, and it is the text
    unchanged when the text is as long as the column or longer. *)
Theorem padAlign_length (t : string) (width : nat) (column : Column) :
  alignWellTyped column →
  ∃ t',
    padAlign (RString t) (Some width) (Some column) = Ok (RString t') ∧
    String.length t' = width `max` String.length t ∧
    (width ≤ String.length t → t' = t).
Proof. apply padAlign_wellTyped. Qed.

Lemma padAlign_length_witness :
  ∃ t',
    padAlign (RString "overlong") (Some 3)
      (Some (ColObject (mkTableColumn "n" None (Some "center"))))
    = Ok (RString t') ∧
    String.length t' = 3 `max` String.length "overlong" ∧
    (3 ≤ String.length "overlong" → t' = "overlong").
Proof.
  apply (padAlign_length "overlong" 3
           (ColObject (mkTableColumn "n" None (Some "center")))).
  right. right. by left.
Defined.

(** A string is always padded, whatever the alignment holds. *)
Lemma padAlign_string_Ok t w column :
  ∃ cell, padAlign (RString t) w (Some column) = Ok cell.
Proof.
  unfold padAlign.
  destruct (padsLeftAligned column); [by eexists|].
  destruct (alignIs column "center"); [by eexists|].
  destruct (alignIs column "right"); by eexists.
Qed.

(** Padding throws nothing but a [TypeError]. *)
Lemma padAlign_Throw x w column e :
  padAlign x w column = Throw e → e = TypeError.
Proof.
  unfold padAlign. destruct column as [column|]; [|by intros [= <-]].
  destruct (padsLeftAligned column); [by destruct x; intros [= <-]|].
  destruct (alignIs column "center"); [by destruct x; intros [= <-]|].
  destruct (alignIs column "right"); [by destruct x; intros [= <-]|done].
Qed.

(** ** More on the exception monad *)

Lemma mapM_total {A B} (f : A → result B) (l : list A) :
  Forall (λ x, ∃ y, f x = Ok y) l → ∃ k, mapM f l = Ok k.
Proof.
  induction 1 as [|x l [y Hy] _ [k Hk]]; [by eexists|].
  exists (y :: k). simpl. rewrite Hy. simpl. by rewrite Hk.
Qed.

Lemma mapM_Throw_origin {A B} (f : A → result B) (l : list A) e :
  mapM f l = Throw e → ∃ x, x ∈ l ∧ f x = Throw e.
Proof.
  induction l as [|x l IH]; [done|]. simpl.
  destruct (f x) as [y|e'] eqn:Hx; simpl.
  - destruct (mapM f l) as [k|e'] eqn:Hl; [done|]. simpl. intros [= ->].
    destruct IH as (x' & Hin & Hx'); [done|]. exists x'. split; [|done].
    by apply elem_of_cons; right.
  - intros [= ->]. exists x. split; [apply elem_of_cons; by left | done].
Qed.

Lemma mapWithIndex_total {A B} (f : A → nat → result B) (l : list A) :
  (∀ i x, l !! i = Some x → ∃ y, f x i = Ok y) →
  ∃ k, mapWithIndex f l = Ok k.
Proof.
  intros H. unfold mapWithIndex. apply mapM_total, Forall_lookup_2.
  intros i [j x]. rewrite list_lookup_imap.
  destruct (l !! i) as [x'|] eqn:Hi; simpl; [|done].
  intros [= <- <-]. by apply H.
Qed.

Lemma mapWithIndex_Throw_origin {A B} (f : A → nat → result B) l e :
  mapWithIndex f l = Throw e → ∃ i x, l !! i = Some x ∧ f x i = Throw e.
Proof.
  unfold mapWithIndex. intros ([i x] & Hin & Hf)%mapM_Throw_origin.
  apply list_elem_of_lookup in Hin as [j Hj].
  rewrite list_lookup_imap in Hj.
  destruct (l !! j) as [x'|] eqn:Hl; simpl in Hj; [|done].
  injection Hj as <- <-. eauto.
Qed.

Lemma isOk_true {A} (m : result A) : isOk m = true ↔ ∃ a, m = Ok a.
Proof. destruct m; simpl; split; [eauto | done | done | by intros [? ?]]. Qed.

(** ** When rendering succeeds *)

Section Success.

Variable renderEntries : list value → RenderOptions → rendered.
Implicit Types (entry : TableEntry) (options : RenderOptions) (row : Row).

Lemma renderCellText_string v options prefixCellValues :
  returnsStrings renderEntries →
  ∃ s, renderCellText renderEntries v options prefixCellValues = RString s.
Proof. intros Hengine. unfold renderCellText. apply Hengine. Qed.

Lemma reduceM_collectCellText_total entry options i column prev rows :
  (∀ row, row ∈ rows → isDefined (cellValueAt row i column) = true →
          ∃ text,
            renderCellText renderEntries (cellValueAt row i column) options
              (prefixCellValues entry) = RString text) →
  ∃ texts,
    reduceM (collectCellText renderEntries entry options i column) prev rows
    = Ok texts.
Proof.
  revert prev. induction rows as [|row rows IH]; intros prev Hall;
    [by eexists|].
  simpl. rewrite collectCellText_unfold.
  destruct (isDefined (cellValueAt row i column)) eqn:Hdef.
  - destruct (Hall row) as [text ->]; [apply elem_of_cons; by left | done|].
    simpl. apply IH. intros row' Hin. apply Hall, elem_of_cons. by right.
  - simpl. apply IH. intros row' Hin. apply Hall, elem_of_cons. by right.
Qed.

Lemma computeCellWidths_total entry options t :
  table entry = Some t →
  (∀ i column row,
     columns t !! i = Some column → row ∈ rows t →
     isDefined (cellValueAt row i column) = true →
     ∃ text,
       renderCellText renderEntries (cellValueAt row i column) options
         (prefixCellValues entry) = RString text) →
  ∃ cellWidths, computeCellWidths renderEntries entry options = Ok cellWidths.
Proof.
  intros Ht Hall. unfold computeCellWidths, tableOf. rewrite Ht. simpl.
  apply mapM_total, Forall_forall. intros i Hi%elem_of_seq.
  unfold columnWidth, tableOf. rewrite Ht. simpl.
  destruct (lookup_lt_is_Some_2 (columns t) i) as [column Hc]; [lia|].
  rewrite Hc.
  destruct (reduceM_collectCellText_total entry options i column [] (rows t))
    as [texts ->]; [by eauto|].
  by eexists.
Qed.

Lemma buildHeaderRow_total entry t cellWidths :
  table entry = Some t →
  ∃ header, buildHeaderRow entry cellWidths (columns t) = Ok header.
Proof.
  intros Ht. unfold buildHeaderRow, tableOf. rewrite Ht. simpl.
  destruct (mapWithIndex_total
              (λ column index,
                 padAlign (RString (getColumnName column))
                   (cellWidths !! index) (columns t !! index)) (columns t))
    as [cells ->]; [|by eexists].
  intros i column Hc. rewrite Hc. apply padAlign_string_Ok.
Qed.

Lemma buildDividerRow_total cellWidths columns :
  length cellWidths = length columns →
  ∃ divider, buildDividerRow cellWidths columns = Ok divider.
Proof.
  intros Hlen. unfold buildDividerRow.
  destruct (mapWithIndex_total
              (λ cellWidth index,
                 match columns !! index with
                 | None => Throw TypeError
                 | Some column =>
                     Ok (getLeftSideAlignmentCharacter column
                         +:+ padStart "" cellWidth "-"
                         +:+ getRightSideAlignmentCharacter column)
                 end) cellWidths) as [cells ->]; [|by eexists].
  intros i w Hw.
  destruct (lookup_lt_is_Some_2 columns i) as [column ->]; [|by eexists].
  apply lookup_lt_Some in Hw. lia.
Qed.

(** A row that renders fits the columns. *)
Lemma dataRowCells_Ok_fits entry t cellWidths options row cells :
  table entry = Some t →
  dataRowCells renderEntries entry cellWidths (columns t) options row
  = Ok cells →
  rowFits (length (columns t)) row.
Proof.
  intros Ht Hcells. destruct row as [r|m]; [|done]. simpl.
  destruct (dataRowCells_array _ _ _ _ _ _ _ _ Ht Hcells) as [_ Hall].
  destruct (decide (length r ≤ length (columns t))) as [|Hgt]; [done|].
  destruct (lookup_lt_is_Some_2 r (length (columns t))) as [cell Hcell];
    [lia|].
  destruct (Hall _ _ Hcell) as (padded & _ & Hpad).
  rewrite (lookup_ge_None_2 (columns t)) in Hpad by lia. done.
Qed.

(** The data rows throw nothing but a [TypeError]. *)
Lemma buildDataRows_Throw entry t cellWidths options e :
  table entry = Some t →
  buildDataRows renderEntries entry cellWidths (columns t) options = Throw e →
  e = TypeError.
Proof.
  intros Ht. unfold buildDataRows, tableOf. rewrite Ht. simpl.
  intros (row & _ & Hrow)%mapM_Throw_origin.
  destruct (dataRowCells _ _ _ _ _ row) as [cells|e'] eqn:Hcells; [done|].
  injection Hrow as ->.
  unfold dataRowCells, tableOf in Hcells. rewrite Ht in Hcells.
  simpl in Hcells.
  destruct row as [r|m];
    apply mapWithIndex_Throw_origin in Hcells as (i & x & _ & Hpad);
    by eapply padAlign_Throw.
Qed.

Lemma dataRowCells_total entry t cellWidths options row :
  table entry = Some t →
  returnsStrings renderEntries →
  rowFits (length (columns t)) row →
  ∃ cells,
    dataRowCells renderEntries entry cellWidths (columns t) options row
    = Ok cells.
Proof.
  intros Ht Hengine Hfits. unfold dataRowCells, tableOf. rewrite Ht. simpl.
  destruct row as [r|m]; apply mapWithIndex_total.
  - intros i cell Hcell.
    destruct (lookup_lt_is_Some_2 (columns t) i) as [column ->].
    { apply lookup_lt_Some in Hcell. simpl in Hfits. lia. }
    destruct (renderCellText_string cell options (prefixCellValues entry)
                Hengine) as [s ->].
    apply padAlign_string_Ok.
  - intros i curr Hcurr. rewrite Hcurr.
    destruct (renderCellText_string
                (default VUndefined (m !! getDataRowPropertyName curr))
                options (prefixCellValues entry) Hengine) as [s ->].
    apply padAlign_string_Ok.
Qed.

Lemma assembleTable_succeeds_iff entry options t :
  table entry = Some t →
  returnsStrings renderEntries →
  isOk (assembleTable renderEntries entry options) = true
  ↔ Forall (rowFits (length (columns t))) (rows t).
Proof.
  intros Ht Hengine. split.
  - intros [md Hmd]%isOk_true.
    destruct (assembleTable_Ok _ _ _ _ _ Ht Hmd)
      as (ws & header & divider & dataRows & _ & _ & _ & Hdata & _).
    pose proof (buildDataRows_Ok _ _ _ _ _ _ Ht Hdata) as Hlines.
    apply Forall_lookup_2. intros j row Hrow.
    destruct (Forall2_lookup_l _ _ _ _ _ Hlines Hrow)
      as (line & _ & cells & Hcells & _).
    by eapply dataRowCells_Ok_fits.
  - intros Hfits.
    destruct (computeCellWidths_total entry options t Ht) as [ws Hws].
    { intros i column row _ _ _. by apply renderCellText_string. }
    destruct (computeCellWidths_Ok _ _ _ _ _ Ht Hws) as [Hlen _].
    destruct (buildHeaderRow_total entry t ws Ht) as [header Hh].
    destruct (buildDividerRow_total ws (columns t) Hlen) as [divider Hd].
    assert (∃ dataRows,
              buildDataRows renderEntries entry ws (columns t) options
              = Ok dataRows) as [dataRows Hdata].
    { unfold buildDataRows, tableOf. rewrite Ht. simpl.
      apply mapM_total. eapply Forall_impl; [exact Hfits|].
      intros row Hrow. simpl.
      destruct (dataRowCells_total entry t ws options row Ht Hengine Hrow)
        as [cells ->].
      by eexists. }
    unfold assembleTable, tableOf. rewrite Ht. simpl.
    rewrite Hws. simpl. rewrite Hh. simpl. rewrite Hd. simpl.
    by rewrite Hdata.
Qed.

End Success.

Lemma rowFits_escapePipes n row p :
  rowFits n (escapePipes row p) ↔ rowFits n row.
Proof.
  destruct row as [r|m]; [|done]. simpl.
  unfold escapePipes, escapePipes_array. by rewrite !length_fmap.
Qed.

Lemma rows_escapePipes (t : Table) p :
  rows (escapePipes t p)
  = (λ row, escapePipes (escapePipes row p) p) <$> rows t.
Proof.
  unfold escapePipes at 1, escapePipes_Table; simpl.
  unfold escapePipes at 1, escapePipes_array.
  by rewrite <- list_fmap_compose.
Qed.

Lemma columns_escapePipes (t : Table) p :
  columns (escapePipes t p)
  = (λ column, escapePipes (escapePipes column p) p) <$> columns t.
Proof.
  unfold escapePipes at 1, escapePipes_Table; simpl.
  unfold escapePipes at 1, escapePipes_array.
  by rewrite <- list_fmap_compose.
Qed.

(** X10. The width computation succeeds exactly when every defined value
    that it reads, for a column of the table, resolves to a string:
    undefined values are skipped, and it throws when one defined value
    resolves to anything else. *)
Theorem computeCellWidths_succeeds_iff
    (renderEntries : list value → RenderOptions → rendered)
    (entry : TableEntry) (options : RenderOptions) (t : Table) :
  table entry = Some t →
  isOk (computeCellWidths renderEntries entry options) = true
  ↔ ∀ i column row,
      columns t !! i = Some column → row ∈ rows t →
      isDefined (cellValueAt row i column) = true →
      ∃ text,
        renderCellText renderEntries (cellValueAt row i column) options
          (prefixCellValues entry) = RString text.
Proof.
  intros Ht. split.
  - intros [ws Hws]%isOk_true i column row Hc Hrow Hdef.
    destruct (renderCellText renderEntries (cellValueAt row i column) options
                (prefixCellValues entry)) as [text| |other] eqn:Htext;
      [by eexists|..].
    + destruct (assembleTable_rejects_non_string renderEntries entry options
                  t i column row Ht Hc Hrow Hdef) as [Hthrow _];
        [by rewrite Htext | congruence].
    + destruct (assembleTable_rejects_non_string renderEntries entry options
                  t i column row Ht Hc Hrow Hdef) as [Hthrow _];
        [by rewrite Htext | congruence].
  - intros Hall. apply isOk_true. by eapply computeCellWidths_total.
Qed.

Lemma computeCellWidths_succeeds_iff_witness :
  isOk (computeCellWidths plainRenderEntries nameAgeEntry noOptions) = true
  ↔ ∀ i column row,
      [ColString "Name"; ColString "Age"] !! i = Some column →
      row ∈ [RowObject {[ "Name" := VStr "Al"; "Age" := VStr "30" ]};
             RowObject {[ "Name" := VStr "Bo"; "Age" := VStr "7" ]}] →
      isDefined (cellValueAt row i column) = true →
      ∃ text,
        renderCellText plainRenderEntries (cellValueAt row i column) noOptions
          None = RString text.
Proof.
  apply (computeCellWidths_succeeds_iff plainRenderEntries nameAgeEntry
           noOptions
           {| columns := [ColString "Name"; ColString "Age"];
              rows := [RowObject {[ "Name" := VStr "Al"; "Age" := VStr "30" ]};
                       RowObject {[ "Name" := VStr "Bo"; "Age" := VStr "7" ]}] |}).
  reflexivity.
Defined.

(** X11. With an engine that always returns a string, a table renders
    exactly when no positional row has more cells than there are columns;
    mapping rows never make it fail. *)
Theorem tableRenderer_succeeds_iff
    (renderEntries : list value → RenderOptions → rendered)
    (entry : TableEntry) (options : RenderOptions) (t : Table) :
  returnsStrings renderEntries →
  table entry = Some t →
  isOk (tableRenderer renderEntries entry options).1 = true
  ↔ Forall (rowFits (length (columns t))) (rows t).
Proof.
  intros Hengine Ht. rewrite (tableRenderer_table _ _ _ _ Ht). simpl.
  set (p := default defaultPipeReplacer (pipeReplacer entry)).
  destruct (escapePipes_table entry t p Ht) as (Ht' & _ & _ & Hcols).
  assert (isOk (assembleTable renderEntries (escapePipes entry p) options
                  ≫= λ md, Ok {| markdown := md; blockLevel := true |})
          = isOk (assembleTable renderEntries (escapePipes entry p) options))
    as -> by by destruct (assembleTable _ _ _).
  rewrite (assembleTable_succeeds_iff _ _ _ _ Ht' Hengine).
  rewrite Hcols, rows_escapePipes, Forall_fmap.
  apply Forall_iff. intros row. simpl. by rewrite !rowFits_escapePipes.
Qed.

Lemma plainStrings_returnsStrings :
  returnsStrings (λ data options,
                    match plainRenderEntries data options with
                    | RString s => RString s
                    | _ => RString ""
                    end).
Proof.
  intros data options. destruct (plainRenderEntries data options); by eexists.
Qed.

Lemma tableRenderer_succeeds_iff_witness :
  isOk (tableRenderer
          (λ data options,
             match plainRenderEntries data options with
             | RString s => RString s
             | _ => RString ""
             end) shortRowEntry noOptions).1 = true
  ↔ Forall (rowFits 2) [RowArray [VStr "x"]].
Proof.
  apply (tableRenderer_succeeds_iff _ shortRowEntry noOptions
           {| columns := [ColString "A"; ColString "B"];
              rows := [RowArray [VStr "x"]] |}).
  - exact plainStrings_returnsStrings.
  - reflexivity.
Defined.

Lemma assembleTable_long_row_throws
    (renderEntries : list value → RenderOptions → rendered)
    (entry : TableEntry) (options : RenderOptions) (t : Table)
    (cellWidths : list nat) (cells : list value) :
  table entry = Some t →
  computeCellWidths renderEntries entry options = Ok cellWidths →
  RowArray cells ∈ rows t →
  length (columns t) < length cells →
  assembleTable renderEntries entry options = Throw TypeError.
Proof.
  intros Ht Hws Hrow Hlong.
  destruct (computeCellWidths_Ok _ _ _ _ _ Ht Hws) as [Hlen _].
  destruct (buildHeaderRow_total entry t cellWidths Ht) as [header Hh].
  destruct (buildDividerRow_total cellWidths (columns t) Hlen)
    as [divider Hd].
  unfold assembleTable, tableOf. rewrite Ht. simpl.
  rewrite Hws. simpl. rewrite Hh. simpl. rewrite Hd. simpl.
  destruct (buildDataRows renderEntries entry cellWidths (columns t) options)
    as [dataRows|e] eqn:Hdata.
  - pose proof (buildDataRows_Ok _ _ _ _ _ _ Ht Hdata) as Hlines.
    apply list_elem_of_lookup in Hrow as [j Hj].
    destruct (Forall2_lookup_l _ _ _ _ _ Hlines Hj)
      as (line & _ & cs & Hcs & _).
    pose proof (dataRowCells_Ok_fits _ _ _ _ _ _ _ Ht Hcs) as Hfits.
    simpl in Hfits. lia.
  - simpl. f_equal. by eapply buildDataRows_Throw.
Qed.

(** X12. A positional row with more cells than there are columns makes
    the render throw a [TypeError] (the column of the extra cell is
    [undefined]) whenever the width computation goes through: no table
    comes out, and the entry is left escaped. *)
Theorem long_positional_row_throws
    (renderEntries : list value → RenderOptions → rendered)
    (entry : TableEntry) (options : RenderOptions) (t : Table)
    (cells : list value) :
  table entry = Some t →
  RowArray cells ∈ rows t →
  length (columns t) < length cells →
  isOk (computeCellWidths renderEntries
          (tableRenderer renderEntries entry options).2 options) = true →
  tableRenderer renderEntries entry options
  = (Throw TypeError,
     escapePipes entry (default defaultPipeReplacer (pipeReplacer entry))).
Proof.
  intros Ht Hrow Hlong. rewrite (tableRenderer_table _ _ _ _ Ht). cbv zeta.
  set (p := default defaultPipeReplacer (pipeReplacer entry)). cbn [snd].
  intros [ws Hws]%isOk_true.
  destruct (escapePipes_table entry t p Ht) as (Ht' & _ & _ & Hcols).
  rewrite (assembleTable_long_row_throws renderEntries (escapePipes entry p)
             options (escapePipes t p) ws
             (escapePipes (escapePipes cells p) p) Ht' Hws); [done|..].
  - rewrite rows_escapePipes.
    change (RowArray (escapePipes (escapePipes cells p) p))
      with ((λ row, escapePipes (escapePipes row p) p) (RowArray cells)).
    by apply list_elem_of_fmap_2.
  - rewrite Hcols. unfold escapePipes, escapePipes_array.
    by rewrite !length_fmap.
Qed.

Lemma long_positional_row_throws_witness :
  tableRenderer plainRenderEntries
    (tableEntry [ColString "A"] [RowArray [VStr "x"; VStr "y"]]) noOptions
  = (Throw TypeError,
     escapePipes (tableEntry [ColString "A"] [RowArray [VStr "x"; VStr "y"]])
       defaultPipeReplacer).
Proof.
  apply (long_positional_row_throws plainRenderEntries
           (tableEntry [ColString "A"] [RowArray [VStr "x"; VStr "y"]])
           noOptions
           {| columns := [ColString "A"];
              rows := [RowArray [VStr "x"; VStr "y"]] |}
           [VStr "x"; VStr "y"]).
  - reflexivity.
  - apply elem_of_cons. by left.
  - simpl. lia.
  - by vm_compute.
Defined.

(** ** The shape of the rendered table *)

Lemma sum_list_Forall2 {A} (g : A → nat) (d : nat) (xs : list A)
    (ws : list nat) :
  Forall2 (λ x w, g x = w + d) xs ws →
  sum_list (g <$> xs) = sum_list ws + d * length ws.
Proof. induction 1 as [|x w xs ws Hx _ IH]; csimpl; [lia|]. rewrite Hx. lia. Qed.

Lemma padAlign_nonstring_Throw x w column :
  alignWellTyped column → (∀ s, x ≠ RString s) →
  padAlign x w (Some column) = Throw TypeError.
Proof.
  intros Halign Hx. unfold padAlign.
  assert (∀ method, stringMethod x method = Throw TypeError) as Hthrow.
  { intros method. destruct x as [s| |]; [by destruct (Hx s) | done..]. }
  destruct (padsLeftAligned column) eqn:Hl; [done|].
  destruct (alignIs column "center") eqn:Hc; [done|].
  destruct (alignIs column "right") eqn:Hr; [done|].
  destruct Halign as [H|[H|[H|H]]].
  - assert (padsLeftAligned column = true)
      by (apply padsLeftAligned_spec; auto). congruence.
  - assert (padsLeftAligned column = true)
      by (apply padsLeftAligned_spec; auto). congruence.
  - apply alignIs_spec in H. congruence.
  - apply alignIs_spec in H. congruence.
Qed.

Lemma alignWellTyped_escapePipes column :
  alignWellTyped column →
  alignWellTyped (escapePipes column defaultPipeReplacer).
Proof.
  destruct column as [s|[n f a]]; [done|]. unfold alignWellTyped. simpl.
  intros [-> | [-> | [-> | ->]]]; vm_compute; auto.
Qed.

Lemma rowFull_escapePipes n row p :
  rowFull n (escapePipes row p) ↔ rowFull n row.
Proof.
  destruct row as [r|m]; [|done]. simpl.
  unfold escapePipes, escapePipes_array. by rewrite !length_fmap.
Qed.

Section Shape.

Variable renderEntries : list value → RenderOptions → rendered.
Implicit Types (entry : TableEntry) (options : RenderOptions) (row : Row).

(** A computed width is at least 3, at least the length of the column's
    name, and at least the length of the text of every defined value of the
    column, which is a string. *)
Lemma cellWidths_bounds entry options t cellWidths i column w :
  table entry = Some t →
  computeCellWidths renderEntries entry options = Ok cellWidths →
  columns t !! i = Some column →
  cellWidths !! i = Some w →
  3 ≤ w ∧ String.length (getColumnName column) ≤ w ∧
  ∀ row, row ∈ rows t → isDefined (cellValueAt row i column) = true →
    ∃ text,
      renderCellText renderEntries (cellValueAt row i column) options
        (prefixCellValues entry) = RString text ∧
      String.length text ≤ w.
Proof.
  intros Ht Hws Hc Hw.
  destruct (computeCellWidths_Ok _ _ _ _ _ Ht Hws) as [_ Hall].
  destruct (Hall i) as (w' & Hw' & Hcol); [by eapply lookup_lt_Some|].
  assert (w' = w) as -> by congruence.
  destruct (columnWidth_Ok _ _ _ _ _ _ _ Ht Hc Hcol) as (texts & Htexts & ->).
  split; [lia|]. split; [lia|]. intros row Hrow Hdef.
  assert (row ∈ filter (λ row, isDefined (cellValueAt row i column) = true)
                  (rows t)) as Hin by by apply list_elem_of_filter.
  apply list_elem_of_lookup in Hin as [j Hj].
  destruct (Forall2_lookup_l _ _ _ _ _ Htexts Hj) as (text & Htext & Hrender).
  exists text. split; [done|].
  assert (String.length text ≤ max_list (String.length <$> texts)).
  { apply max_list_elem_of_le, list_elem_of_fmap_2.
    by eapply list_elem_of_lookup_2. }
  lia.
Qed.

(** What is padded into cell [i] of a row. *)
Lemma cell_text_fits entry options t cellWidths i column w row x cell :
  table entry = Some t →
  computeCellWidths renderEntries entry options = Ok cellWidths →
  columns t !! i = Some column →
  cellWidths !! i = Some w →
  alignWellTyped column →
  rendersMissingAsEmpty renderEntries options (prefixCellValues entry) →
  row ∈ rows t →
  orEmpty x
  = orEmpty (renderCellText renderEntries (cellValueAt row i column) options
               (prefixCellValues entry)) →
  padAlign x (Some w) (Some column) = Ok cell →
  String.length (joinText cell) = w.
Proof.
  intros Ht Hws Hc Hw Halign Hengine Hrow Hx Hpad.
  assert (∃ s, orEmpty x = RString s ∧ String.length s ≤ w)
    as (s & Hs & Hle).
  { rewrite Hx.
    destruct (isDefined (cellValueAt row i column)) eqn:Hdef.
    - destruct (cellWidths_bounds _ _ _ _ _ _ _ Ht Hws Hc Hw)
        as (_ & _ & Hall).
      destruct (Hall row Hrow Hdef) as (text & -> & Hlen). by exists text.
    - destruct (cellValueAt row i column); try done.
      exists "".
      split; [by apply rendersMissingAsEmpty_orEmpty | simpl; lia]. }
  destruct x as [s'| |other]; simpl in Hs.
  - injection Hs as ->.
    destruct (padAlign_wellTyped s w column Halign) as (t' & Ht' & Hlen & _).
    rewrite Ht' in Hpad. injection Hpad as <-. simpl. lia.
  - rewrite padAlign_nonstring_Throw in Hpad; done.
  - done.
Qed.

Lemma dataRowCells_widths entry options t cellWidths row cells :
  table entry = Some t →
  computeCellWidths renderEntries entry options = Ok cellWidths →
  Forall alignWellTyped (columns t) →
  rendersMissingAsEmpty renderEntries options (prefixCellValues entry) →
  row ∈ rows t →
  rowFull (length (columns t)) row →
  dataRowCells renderEntries entry cellWidths (columns t) options row
  = Ok cells →
  Forall2 (λ cell w, String.length (joinText cell) = w + 0) cells cellWidths.
Proof.
  intros Ht Hws Haligns Hengine Hrow Hfull Hcells.
  destruct (computeCellWidths_Ok _ _ _ _ _ Ht Hws) as [Hlen _].
  apply Forall2_same_length_lookup_2.
  - destruct row as [r|m].
    + destruct (dataRowCells_array _ _ _ _ _ _ _ _ Ht Hcells) as [-> _].
      simpl in Hfull. lia.
    + destruct (dataRowCells_object _ _ _ _ _ _ _ _ Ht Hcells) as [-> _].
      lia.
  - intros i cell w Hcell Hw. rewrite Nat.add_0_r.
    destruct (lookup_lt_is_Some_2 (columns t) i) as [column Hc].
    { apply lookup_lt_Some in Hw. lia. }
    pose proof (Forall_lookup_1 _ _ _ _ Haligns Hc) as Halign.
    destruct row as [r|m].
    + destruct (dataRowCells_array _ _ _ _ _ _ _ _ Ht Hcells) as [Hl Hall].
      destruct (lookup_lt_is_Some_2 r i) as [v Hv].
      { rewrite <- Hl. by eapply lookup_lt_Some. }
      destruct (Hall i v Hv) as (padded & Hp & Hpad).
      assert (padded = cell) as -> by congruence.
      rewrite Hw, Hc in Hpad.
      apply (cell_text_fits entry options t cellWidths i column w
               (RowArray r)
               (renderCellText renderEntries v options
                  (prefixCellValues entry)) cell); try done.
      simpl. by rewrite Hv.
    + destruct (dataRowCells_object _ _ _ _ _ _ _ _ Ht Hcells) as [_ Hall].
      destruct (Hall i column Hc) as (padded & Hp & Hpad).
      assert (padded = cell) as -> by congruence.
      rewrite Hw, Hc in Hpad.
      apply (cell_text_fits entry options t cellWidths i column w
               (RowObject m)
               (orEmpty (renderCellText renderEntries
                           (cellValueAt (RowObject m) i column) options
                           (prefixCellValues entry))) cell); try done.
      by destruct (renderCellText _ _ _ _).
Qed.

Lemma buildHeaderRow_widths entry options t cellWidths header :
  table entry = Some t →
  computeCellWidths renderEntries entry options = Ok cellWidths →
  Forall alignWellTyped (columns t) →
  0 < length cellWidths →
  buildHeaderRow entry cellWidths (columns t) = Ok header →
  String.length header = sum_list cellWidths + 3 * length cellWidths + 1.
Proof.
  intros Ht Hws Haligns Hpos. unfold buildHeaderRow, tableOf. rewrite Ht. simpl.
  intros (cells & Hcells & [= <-])%bind_Ok_inv.
  destruct (computeCellWidths_Ok _ _ _ _ _ Ht Hws) as [Hlen _].
  destruct (mapWithIndex_Ok _ _ _ Hcells) as [Hl Hall].
  assert (Forall2 (λ cell w, String.length (joinText cell) = w + 0)
            cells cellWidths) as Hcw.
  { apply Forall2_same_length_lookup_2; [lia|].
    intros i cell w Hcell Hw. rewrite Nat.add_0_r.
    destruct (lookup_lt_is_Some_2 (columns t) i) as [column Hc].
    { apply lookup_lt_Some in Hw. lia. }
    destruct (Hall i column Hc) as (cell' & Hcell' & Hpad).
    assert (cell' = cell) as -> by congruence.
    rewrite Hw, Hc in Hpad.
    destruct (cellWidths_bounds _ _ _ _ _ _ _ Ht Hws Hc Hw) as (_ & Hname & _).
    destruct (padAlign_wellTyped (getColumnName column) w column)
      as (t' & Ht' & Hlen' & _); [by eapply Forall_lookup_1|].
    rewrite Ht' in Hpad. injection Hpad as <-. simpl. lia. }
  rewrite !length_append, length_join, <- list_fmap_compose.
  rewrite (sum_list_Forall2 (String.length ∘ joinText) 0 cells cellWidths Hcw).
  rewrite length_fmap. simpl.
  apply Forall2_length in Hcw. lia.
Qed.

Lemma buildDividerRow_widths cellWidths columns divider :
  0 < length cellWidths →
  buildDividerRow cellWidths columns = Ok divider →
  String.length divider = sum_list cellWidths + 3 * length cellWidths + 1.
Proof.
  intros Hpos. unfold buildDividerRow. intros (cells & Hcells & [= <-])%bind_Ok_inv.
  destruct (mapWithIndex_Ok _ _ _ Hcells) as [Hl Hall].
  assert (Forall2 (λ cell w, String.length cell = w + 2) cells cellWidths)
    as Hcw.
  { apply Forall2_same_length_lookup_2; [done|].
    intros i cell w Hcell Hw.
    destruct (Hall i w Hw) as (cell' & Hcell' & Hdiv).
    assert (cell' = cell) as -> by congruence.
    destruct (columns !! i) as [column|]; [|done]. injection Hdiv as <-.
    rewrite padStart_empty, !length_append, length_fill.
    rewrite getLeftSideAlignmentCharacter_spec,
      getRightSideAlignmentCharacter_spec.
    do 2 case_bool_decide; simpl; lia. }
  rewrite !length_append, length_join.
  pose proof (sum_list_Forall2 String.length 2 cells cellWidths Hcw) as Hsum.
  rewrite list_fmap_id in Hsum || idtac.
  apply Forall2_length in Hcw. simpl. lia.
Qed.

(** All the lines of a rendered table are equally long. *)
Lemma assembleTable_rectangular entry options t md :
  table entry = Some t →
  columns t ≠ [] →
  Forall alignWellTyped (columns t) →
  Forall (rowFull (length (columns t))) (rows t) →
  rendersMissingAsEmpty renderEntries options (prefixCellValues entry) →
  assembleTable renderEntries entry options = Ok md →
  ∃ lines width,
    md = join newline lines ∧
    length lines = length (rows t) + 2 ∧
    Forall (λ line, String.length line = width) lines.
Proof.
  intros Ht Hne Haligns Hfull Hengine Hmd.
  destruct (assembleTable_Ok _ _ _ _ _ Ht Hmd)
    as (ws & header & divider & dataRows & Hws & Hh & Hd & Hdata & ->).
  destruct (computeCellWidths_Ok _ _ _ _ _ Ht Hws) as [Hlen _].
  assert (0 < length ws) as Hpos.
  { rewrite Hlen. destruct (columns t); [done | simpl; lia]. }
  pose proof (buildDataRows_Ok _ _ _ _ _ _ Ht Hdata) as Hlines.
  exists (header :: divider :: dataRows),
    (sum_list ws + 3 * length ws + 1).
  split; [done|]. split.
  { apply Forall2_length in Hlines. simpl. lia. }
  repeat apply Forall_cons_2.
  - by rewrite (buildHeaderRow_widths _ _ _ _ _ Ht Hws Haligns Hpos Hh).
  - by rewrite (buildDividerRow_widths _ _ _ Hpos Hd).
  - apply Forall_lookup_2. intros j line Hline.
    destruct (Forall2_lookup_r _ _ _ _ _ Hlines Hline)
      as (row & Hrow & cells & Hcells & ->).
    assert (Forall2 (λ cell w, String.length (joinText cell) = w + 0) cells ws)
      as Hcw.
    { eapply dataRowCells_widths; try done.
      - by eapply list_elem_of_lookup_2.
      - by eapply (Forall_lookup_1 _ _ _ _ Hfull). }
    rewrite !length_append, length_join, <- list_fmap_compose.
    rewrite (sum_list_Forall2 (String.length ∘ joinText) 0 cells ws Hcw).
    rewrite length_fmap. simpl.
    apply Forall2_length in Hcw. lia.
Qed.

End Shape.

(** X13. With the default replacer, a table with at least one column,
    well-typed alignments and positional rows of one cell per column
    renders as a rectangle: header, divider and every data row are strings
    of one and the same length, so the pipes line up. (The rendering engine
    is taken to render a missing value to nothing.) *)
Theorem rendered_table_is_rectangular
    (renderEntries : list value → RenderOptions → rendered)
    (entry : TableEntry) (options : RenderOptions) (t : Table)
    (result : RenderResult) :
  pipeReplacer entry = None →
  table entry = Some t →
  columns t ≠ [] →
  Forall alignWellTyped (columns t) →
  Forall (rowFull (length (columns t))) (rows t) →
  rendersMissingAsEmpty renderEntries options (prefixCellValues entry) →
  (tableRenderer renderEntries entry options).1 = Ok result →
  ∃ lines width,
    markdown result = join newline lines ∧
    length lines = length (rows t) + 2 ∧
    Forall (λ line, String.length line = width) lines.
Proof.
  intros Hp Ht Hne Haligns Hfull Hengine.
  rewrite (tableRenderer_table _ _ _ _ Ht). simpl. rewrite Hp. simpl.
  intros (md & Hmd & [= <-])%bind_Ok_inv. simpl.
  destruct (escapePipes_table entry t defaultPipeReplacer Ht)
    as (Ht' & Hpcv & Hrows & Hcols).
  rewrite <- Hrows.
  apply (assembleTable_rectangular renderEntries
           (escapePipes entry defaultPipeReplacer) options
           (escapePipes t defaultPipeReplacer)); try done.
  - destruct (columns (escapePipes t defaultPipeReplacer)) eqn:Heq;
      [|done].
    simpl in Hcols. destruct (columns t); done.
  - rewrite columns_escapePipes. apply Forall_fmap.
    eapply Forall_impl; [exact Haligns|]. intros column Hc. simpl.
    by do 2 apply alignWellTyped_escapePipes.
  - rewrite Hcols, rows_escapePipes. apply Forall_fmap.
    eapply Forall_impl; [exact Hfull|]. intros row Hrow. simpl.
    by rewrite !rowFull_escapePipes.
  - by rewrite Hpcv.
Qed.

Lemma rendered_table_is_rectangular_witness :
  ∃ lines width,
    join newline
      ["| Name | Age |"; "| ---- | --- |"; "| Al   | 30  |"; "| Bo   | 7   |"]
    = join newline lines ∧
    length lines = 2 + 2 ∧
    Forall (λ line, String.length line = width) lines.
Proof.
  apply (rendered_table_is_rectangular plainRenderEntries nameAgeEntry
           noOptions
           {| columns := [ColString "Name"; ColString "Age"];
              rows := [RowObject {[ "Name" := VStr "Al"; "Age" := VStr "30" ]};
                       RowObject {[ "Name" := VStr "Bo"; "Age" := VStr "7" ]}] |}
           {| markdown :=
                join newline
                  ["| Name | Age |"; "| ---- | --- |"; "| Al   | 30  |";
                   "| Bo   | 7   |"];
              blockLevel := true |}).
  - reflexivity.
  - reflexivity.
  - done.
  - repeat constructor.
  - by repeat constructor.
  - apply plainRenderEntries_missing.
  - by vm_compute.
Defined.

(** ** Positional rows and mapping rows *)

Lemma mapWithIndex_cons {A B} (f : A → nat → result B) x (l : list A) :
  mapWithIndex f (x :: l)
  = f x 0 ≫= λ y, mapWithIndex (λ a i, f a (S i)) l ≫= λ k, Ok (y :: k).
Proof.
  unfold mapWithIndex. rewrite imap_cons.
  change (mapM (λ ix, f ix.2 ix.1) ((0, x) :: imap (pair ∘ S) l))
    with (f x 0 ≫= λ y,
          mapM (λ ix, f ix.2 ix.1) (imap (pair ∘ S) l) ≫= λ k, mret (y :: k)).
  replace (imap (pair ∘ S) l)
    with ((λ ix : nat * A, (S ix.1, ix.2)) <$> imap pair l)
    by (rewrite fmap_imap; by apply imap_ext).
  by rewrite mapM_result_fmap.
Qed.

(** Two indexed maps over lists of the same length that agree index by
    index give the same result, error included. *)
Lemma mapWithIndex_ext2 {A A' B} (f : A → nat → result B)
    (g : A' → nat → result B) (l : list A) (l' : list A') :
  length l = length l' →
  (∀ i x x', l !! i = Some x → l' !! i = Some x' → f x i = g x' i) →
  mapWithIndex f l = mapWithIndex g l'.
Proof.
  revert f g l'. induction l as [|x l IH]; intros f g [|x' l'] Hlen H;
    try done.
  rewrite !mapWithIndex_cons. rewrite (H 0 x x') by done.
  rewrite (IH (λ a i, f a (S i)) (λ a i, g a (S i)) l'); [done|..].
  - simpl in Hlen. lia.
  - intros i y y' Hy Hy'. by apply (H (S i)).
Qed.

(** X14. The two row shapes are interchangeable: a positional row with one
    cell per column and a mapping row that holds the same values under the
    columns' field keys give the same value to the width computation for
    every column and, cell for cell, the same data row, provided no cell
    resolves to [null] or [undefined] (which only the mapping path replaces
    by the empty string). *)
Theorem positional_and_mapping_rows_agree
    (renderEntries : list value → RenderOptions → rendered)
    (entry : TableEntry) (t : Table) (cellWidths : list nat)
    (options : RenderOptions) (r : list value) (m : gmap string value) :
  table entry = Some t →
  length r = length (columns t) →
  (∀ i column, columns t !! i = Some column →
               m !! getDataRowPropertyName column = r !! i) →
  (∀ v, v ∈ r →
        renderCellText renderEntries v options (prefixCellValues entry)
        ≠ RNullish) →
  (∀ i column, columns t !! i = Some column →
               cellValueAt (RowArray r) i column
               = cellValueAt (RowObject m) i column) ∧
  dataRowCells renderEntries entry cellWidths (columns t) options (RowArray r)
  = dataRowCells renderEntries entry cellWidths (columns t) options
      (RowObject m).
Proof.
  intros Ht Hlen Hsame Hnotnull. split.
  - intros i column Hc. simpl. by rewrite (Hsame i column Hc).
  - unfold dataRowCells, tableOf. rewrite Ht. simpl.
    apply mapWithIndex_ext2; [done|].
    intros i v column Hv Hc. rewrite (Hsame i column Hc), Hv. simpl.
    f_equal.
    assert (v ∈ r) as Hin by by eapply list_elem_of_lookup_2.
    specialize (Hnotnull v Hin).
    by destruct (renderCellText renderEntries v options
                   (prefixCellValues entry)).
Qed.

Lemma positional_and_mapping_rows_agree_witness :
  (∀ i column, [ColString "Name"; ColString "Age"] !! i = Some column →
               cellValueAt (RowArray [VStr "Al"; VStr "30"]) i column
               = cellValueAt
                   (RowObject {[ "Name" := VStr "Al"; "Age" := VStr "30" ]})
                   i column) ∧
  dataRowCells plainRenderEntries nameAgeEntry [4; 3]
    [ColString "Name"; ColString "Age"] noOptions
    (RowArray [VStr "Al"; VStr "30"])
  = dataRowCells plainRenderEntries nameAgeEntry [4; 3]
      [ColString "Name"; ColString "Age"] noOptions
      (RowObject {[ "Name" := VStr "Al"; "Age" := VStr "30" ]}).
Proof.
  apply (positional_and_mapping_rows_agree plainRenderEntries nameAgeEntry
           {| columns := [ColString "Name"; ColString "Age"];
              rows := [RowObject {[ "Name" := VStr "Al"; "Age" := VStr "30" ]};
                       RowObject {[ "Name" := VStr "Bo"; "Age" := VStr "7" ]}] |}
           [4; 3] noOptions [VStr "Al"; VStr "30"]
           {[ "Name" := VStr "Al"; "Age" := VStr "30" ]}).
  - reflexivity.
  - reflexivity.
  - intros [|[|i]] column [= <-]; reflexivity.
  - intros v Hv. apply elem_of_cons in Hv as [->|Hv]; [done|].
    apply elem_of_cons in Hv as [->|Hv]; [done|]. by apply elem_of_nil in Hv.
Defined.

(** ** Rendering an entry again *)

Section Idempotent.

Variable p : string → string.
Hypothesis p_idempotent : ∀ s, p (p s) = p s.

Lemma escapePipes_value_idempotent (v : value) :
  escapePipes (escapePipes v p) p = escapePipes v p.
Proof using All.
  unfold escapePipes, escapePipes_value. rewrite escapeTimes_compose.
  by apply (escapeTimes_idempotent _ 1).
Qed.

Lemma escapePipes_array_idempotent {T} `{EscapePipes T} (l : list T) :
  (∀ x : T, escapePipes (escapePipes x p) p = escapePipes x p) →
  escapePipes (escapePipes l p) p = escapePipes l p.
Proof using All.
  intros Hx. unfold escapePipes at 1 2 3, escapePipes_array.
  rewrite <- !list_fmap_compose. apply list_fmap_ext. intros _ x _. simpl.
  by rewrite !Hx.
Qed.

Lemma escapePipes_option_idempotent {T} `{EscapePipes T} (o : option T) :
  (∀ x : T, escapePipes (escapePipes x p) p = escapePipes x p) →
  escapePipes (escapePipes o p) p = escapePipes o p.
Proof using All.
  intros Hx. destruct o as [x|]; [|done].
  unfold escapePipes at 1 2 3, escapePipes_option. simpl. f_equal. apply Hx.
Qed.

Lemma escapePipes_Column_idempotent (column : Column) :
  escapePipes (escapePipes column p) p = escapePipes column p.
Proof using All.
  destruct column as [s|[n f a]].
  - change (ColString (p (p s)) = ColString (p s)). by rewrite p_idempotent.
  - change (ColObject {| name := p (p n);
                         field := p <$> (p <$> f);
                         align := p <$> (p <$> a) |}
            = ColObject {| name := p n; field := p <$> f; align := p <$> a |}).
    rewrite p_idempotent.
    destruct f, a; simpl; by rewrite ?p_idempotent.
Qed.

Lemma escapePipes_Row_idempotent (row : Row) :
  escapePipes (escapePipes row p) p = escapePipes row p.
Proof using All.
  destruct row as [r|m]; unfold escapePipes at 1 2 3, escapePipes_Row; f_equal.
  - apply escapePipes_array_idempotent, escapePipes_value_idempotent.
  - unfold escapePipes at 1 2 3, escapePipes_gmap.
    rewrite <- map_fmap_compose. apply map_fmap_ext. intros key v _. simpl.
    apply escapePipes_value_idempotent.
Qed.

Lemma escapePipes_TableEntry_idempotent (entry : TableEntry) :
  escapePipes (escapePipes entry p) p = escapePipes entry p.
Proof using All.
  destruct entry as [t a r pcv o].
  unfold escapePipes at 1 2 3, escapePipes_TableEntry. simpl. f_equal.
  - apply escapePipes_option_idempotent. intros [cs rs].
    unfold escapePipes at 1 2 3, escapePipes_Table. simpl. f_equal.
    + apply escapePipes_array_idempotent, escapePipes_Column_idempotent.
    + apply escapePipes_array_idempotent, escapePipes_Row_idempotent.
  - apply escapePipes_option_idempotent. intros s. apply p_idempotent.
  - by destruct r.
  - by destruct pcv.
  - unfold escapePipes at 1 2 3, escapePipes_props.
    rewrite <- list_fmap_compose. apply list_fmap_ext. intros _ [key v] _.
    simpl. f_equal. apply escapePipes_value_idempotent.
Qed.

End Idempotent.

(** X15. With a replacer that changes nothing the second time, as the
    default one, a render can be repeated: rendering the entry as a first
    render has left it gives the same result as the first render and leaves
    the entry as it is. *)
Theorem rerender_is_stable
    (renderEntries : list value → RenderOptions → rendered)
    (entry : TableEntry) (options : RenderOptions) :
  (∀ s, default defaultPipeReplacer (pipeReplacer entry)
          (default defaultPipeReplacer (pipeReplacer entry) s)
        = default defaultPipeReplacer (pipeReplacer entry) s) →
  tableRenderer renderEntries
    (tableRenderer renderEntries entry options).2 options
  = tableRenderer renderEntries entry options.
Proof.
  intros Hp. destruct (table entry) as [t|] eqn:Ht.
  - rewrite (tableRenderer_table _ _ _ _ Ht). cbv zeta.
    set (p := default defaultPipeReplacer (pipeReplacer entry)) in *.
    cbn [snd].
    destruct (escapePipes_table entry t p Ht) as (Ht' & _).
    rewrite (tableRenderer_table _ _ _ _ Ht'). cbv zeta.
    assert (pipeReplacer (escapePipes entry p) = pipeReplacer entry) as ->
      by by destruct entry as [? ? [?|] ? ?].
    fold p. by rewrite (escapePipes_TableEntry_idempotent p Hp).
  - unfold tableRenderer. rewrite Ht. simpl. by rewrite Ht.
Qed.

Lemma rerender_is_stable_witness :
  tableRenderer plainRenderEntries
    (tableRenderer plainRenderEntries pipeFieldEntry noOptions).2 noOptions
  = tableRenderer plainRenderEntries pipeFieldEntry noOptions.
Proof.
  apply (rerender_is_stable plainRenderEntries pipeFieldEntry noOptions).
  intros s. apply defaultPipeReplacer_idempotent.
Defined.

(** ** Widths and shape *)

(** X16. Every computed width is at least 3 and at least the length of the
    column's display name, and every defined value of the column resolves
    to a text that is no longer than the width. Undefined values are not
    measured: what the engine renders for them is not bounded by the
    width. *)
Theorem computed_widths_fit
    (renderEntries : list value → RenderOptions → rendered)
    (entry : TableEntry) (options : RenderOptions) (t : Table)
    (cellWidths : list nat) (i : nat) (column : Column) (w : nat) :
  table entry = Some t →
  computeCellWidths renderEntries entry options = Ok cellWidths →
  columns t !! i = Some column →
  cellWidths !! i = Some w →
  3 ≤ w ∧ String.length (getColumnName column) ≤ w ∧
  ∀ row, row ∈ rows t → isDefined (cellValueAt row i column) = true →
    ∃ text,
      renderCellText renderEntries (cellValueAt row i column) options
        (prefixCellValues entry) = RString text ∧
      String.length text ≤ w.
Proof. apply cellWidths_bounds. Qed.

Lemma computed_widths_fit_witness :
  3 ≤ 4 ∧ String.length (getColumnName (ColString "Name")) ≤ 4 ∧
  ∀ row,
    row ∈ [RowObject {[ "Name" := VStr "Al"; "Age" := VStr "30" ]};
           RowObject {[ "Name" := VStr "Bo"; "Age" := VStr "7" ]}] →
    isDefined (cellValueAt row 0 (ColString "Name")) = true →
    ∃ text,
      renderCellText plainRenderEntries
        (cellValueAt row 0 (ColString "Name")) noOptions None
      = RString text ∧
      String.length text ≤ 4.
Proof.
  apply (computed_widths_fit plainRenderEntries nameAgeEntry noOptions
           {| columns := [ColString "Name"; ColString "Age"];
              rows := [RowObject {[ "Name" := VStr "Al"; "Age" := VStr "30" ]};
                       RowObject {[ "Name" := VStr "Bo"; "Age" := VStr "7" ]}] |}
           [4; 3] 0 (ColString "Name") 4).
  - reflexivity.
  - by vm_compute.
  - reflexivity.
  - reflexivity.
Defined.

(** X17. Whatever the replacer, the escape changes strings only and never
    the shape of the table: the numbers of columns and rows, the length of
    every positional row, the key set of every mapping row, and the
    [pipeReplacer] and [prefixCellValues] settings stay as they are. *)
Theorem escape_keeps_the_shape
    (entry : TableEntry) (t : Table) (p : string → string) :
  table entry = Some t →
  ∃ t',
    table (escapePipes entry p) = Some t' ∧
    pipeReplacer (escapePipes entry p) = pipeReplacer entry ∧
    prefixCellValues (escapePipes entry p) = prefixCellValues entry ∧
    length (columns t') = length (columns t) ∧
    length (rows t') = length (rows t) ∧
    (∀ j r, rows t !! j = Some (RowArray r) →
            ∃ r', rows t' !! j = Some (RowArray r') ∧ length r' = length r) ∧
    (∀ j m, rows t !! j = Some (RowObject m) →
            ∃ m', rows t' !! j = Some (RowObject m') ∧ dom m' = dom m).
Proof.
  intros Ht.
  destruct (escapePipes_table entry t p Ht) as (Ht' & Hpcv & Hrows & Hcols).
  exists (escapePipes t p). split; [done|].
  split; [by destruct entry as [? ? [?|] ? ?]|].
  split; [done|]. split; [done|]. split; [done|]. split.
  - intros j r Hr. exists (escapePipes (escapePipes r p) p). split.
    + by rewrite rows_escapePipes, list_lookup_fmap, Hr.
    + unfold escapePipes, escapePipes_array. by rewrite !length_fmap.
  - intros j m Hm. exists (escapePipes (escapePipes m p) p). split.
    + by rewrite rows_escapePipes, list_lookup_fmap, Hm.
    + unfold escapePipes, escapePipes_gmap. by rewrite !dom_fmap_L.
Qed.

Lemma escape_keeps_the_shape_witness :
  ∃ t',
    table (escapePipes pipeFieldEntry backslashReplacer) = Some t' ∧
    pipeReplacer (escapePipes pipeFieldEntry backslashReplacer) = None ∧
    prefixCellValues (escapePipes pipeFieldEntry backslashReplacer) = None ∧
    length (columns t') = 1 ∧
    length (rows t') = 1 ∧
    (∀ j r, [RowObject {[ "a|b" := VStr "value" ]}] !! j = Some (RowArray r) →
            ∃ r', rows t' !! j = Some (RowArray r') ∧ length r' = length r) ∧
    (∀ j (m : gmap string value),
       [RowObject {[ "a|b" := VStr "value" ]}] !! j = Some (RowObject m) →
       ∃ m', rows t' !! j = Some (RowObject m') ∧ dom m' = dom m).
Proof.
  apply (escape_keeps_the_shape pipeFieldEntry
           {| columns := [ColObject (mkTableColumn "Key" (Some "a|b") None)];
              rows := [RowObject {[ "a|b" := VStr "value" ]}] |}
           backslashReplacer).
  reflexivity.
Defined.

(** ** The cell of a missing value *)

(** Padding under a well-typed alignment adds spaces around the text and
    nothing else, up to the width. *)
Lemma padAlign_wellTyped_spaces t w column :
  alignWellTyped column →
  ∃ l r,
    padAlign (RString t) (Some w) (Some column)
    = Ok (RString (fill " " l +:+ t +:+ fill " " r)) ∧
    l + String.length t + r = w `max` String.length t.
Proof.
  intros [H|[H|[H|H]]].
  - exists 0, (w - String.length t).
    split; [by apply padAlign_left; auto | lia].
  - exists 0, (w - String.length t).
    split; [by apply padAlign_left; auto | lia].
  - exists ((String.length t + w) / 2 - String.length t),
      (w - ((String.length t + w) / 2 - String.length t + String.length t)).
    assert (2 * ((String.length t + w) / 2) ≤ String.length t + w)
      by apply Nat.Div0.mul_div_le.
    split; [|lia].
    rewrite padAlign_center by done. rewrite centerTarget_eq.
    unfold padEnd, padStart.
    by rewrite length_append, length_fill, append_assoc.
  - exists (w - String.length t), 0.
    split; [|lia]. rewrite padAlign_right by done.
    by rewrite append_empty_r.
Qed.

Section MissingCell.

Variable renderEntries : list value → RenderOptions → rendered.
Implicit Types (entry : TableEntry) (options : RenderOptions).

(** The cell of a column whose key a mapping row does not have: the text
    the engine gives for [undefined] under the cell options, or the empty
    string when it gives [null] or [undefined], with spaces around it. *)
Lemma dataRowCells_missing_cell entry t cellWidths options m cells i column
    width :
  table entry = Some t →
  columns t !! i = Some column →
  alignWellTyped column →
  cellWidths !! i = Some width →
  m !! getDataRowPropertyName column = None →
  dataRowCells renderEntries entry cellWidths (columns t) options (RowObject m)
  = Ok cells →
  ∃ text left right,
    (renderEntries [VUndefined] (cellOptions entry options) = RNullish
     ∧ text = ""
     ∨ renderEntries [VUndefined] (cellOptions entry options) = RString text) ∧
    cells !! i = Some (RString (fill " " left +:+ text +:+ fill " " right)) ∧
    left + String.length text + right = width `max` String.length text ∧
    (text = "" → cells !! i = Some (RString (fill " " width))).
Proof.
  intros Ht Hc Halign Hw Hm Hcells.
  destruct (dataRowCells_object _ _ _ _ _ _ _ _ Ht Hcells) as [_ Hall].
  destruct (Hall i column Hc) as (cell & Hcell & Hpad).
  rewrite Hm, Hw, Hc in Hpad.
  change (default VUndefined None) with VUndefined in Hpad.
  change (renderCellText renderEntries VUndefined options
            (prefixCellValues entry))
    with (renderEntries [VUndefined] (cellOptions entry options)) in Hpad.
  assert (∀ text,
            orEmpty (renderEntries [VUndefined] (cellOptions entry options))
            = RString text →
            ∃ left right,
              cells !! i
              = Some (RString (fill " " left +:+ text +:+ fill " " right)) ∧
              left + String.length text + right
              = width `max` String.length text ∧
              (text = "" → cells !! i = Some (RString (fill " " width))))
    as Hpadded.
  { intros text Htext. rewrite Htext in Hpad.
    destruct (padAlign_wellTyped_spaces text width column Halign)
      as (l & r & Hlr & Hsum).
    rewrite Hlr in Hpad. injection Hpad as <-.
    exists l, r. split; [done|]. split; [done|]. intros ->.
    rewrite Hcell. do 2 f_equal. simpl in *.
    change ("" +:+ fill " " r) with (fill " " r).
    rewrite <- fill_add. f_equal. lia. }
  destruct (renderEntries [VUndefined] (cellOptions entry options))
    as [text| |other] eqn:Hengine.
  - destruct (Hpadded text eq_refl) as (l & r & H1 & H2 & H3).
    exists text, l, r. auto.
  - destruct (Hpadded "" eq_refl) as (l & r & H1 & H2 & H3).
    exists "", l, r. auto.
  - change (orEmpty (ROther other)) with (ROther other) in Hpad.
    rewrite padAlign_nonstring_Throw in Hpad; done.
Qed.

End MissingCell.




(** C6 (amended). A mapping row yields exactly one cell per column; the
    cell of a missing value holds what the engine gives for [undefined]
    under the options of the cells (the empty string when it gives [null]
    or [undefined]), padded with spaces to the column's width when the
    column's [align] is absent or one of its three values, so that it is
    all spaces when that text is empty. A positional row yields one cell
    per element of the row, which are no more than the columns when the row
    renders, and fewer when the row is short. *)
Theorem dataRowCells_count
    (renderEntries : list value → RenderOptions → rendered)
    (entry : TableEntry) (t : Table) (cellWidths : list nat)
    (options : RenderOptions) (row : Row) (cells : list rendered) :
  table entry = Some t →
  dataRowCells renderEntries entry cellWidths (columns t) options row
  = Ok cells →
  match row with
  | RowObject m =>
      length cells = length (columns t) ∧
      ∀ i column width,
        columns t !! i = Some column → alignWellTyped column →
        cellWidths !! i = Some width →
        m !! getDataRowPropertyName column = None →
        ∃ text left right,
          (renderEntries [VUndefined] (cellOptions entry options) = RNullish
           ∧ text = ""
           ∨ renderEntries [VUndefined] (cellOptions entry options)
             = RString text) ∧
          cells !! i
          = Some (RString (fill " " left +:+ text +:+ fill " " right)) ∧
          left + String.length text + right
          = width `max` String.length text ∧
          (text = "" → cells !! i = Some (RString (fill " " width)))
  | RowArray r => length cells = length r ∧ length r ≤ length (columns t)
  end.
Proof.
  intros Ht Hcells. destruct row as [r|m].
  - destruct (dataRowCells_array _ _ _ _ _ _ _ _ Ht Hcells) as [Hlen _].
    split; [done|].
    by apply (dataRowCells_Ok_fits renderEntries entry t cellWidths options
                (RowArray r) cells).
  - destruct (dataRowCells_object _ _ _ _ _ _ _ _ Ht Hcells) as [Hlen _].
    split; [done|]. intros i column width Hc Halign Hw Hm.
    by eapply dataRowCells_missing_cell.
Qed.

Lemma dataRowCells_count_witness :
  length [RString "Al  "; RString "   "] = 2 ∧
  ∀ i column width,
    [ColString "Name"; ColString "Age"] !! i = Some column →
    alignWellTyped column →
    [4; 3] !! i = Some width →
    ({[ "Name" := VStr "Al" ]} : gmap string value)
      !! getDataRowPropertyName column = None →
    ∃ text left right,
      (plainRenderEntries [VUndefined] (cellOptions missingAgeEntry noOptions)
       = RNullish ∧ text = ""
       ∨ plainRenderEntries [VUndefined]
           (cellOptions missingAgeEntry noOptions) = RString text) ∧
      [RString "Al  "; RString "   "] !! i
      = Some (RString (fill " " left +:+ text +:+ fill " " right)) ∧
      left + String.length text + right = width `max` String.length text ∧
      (text = "" →
       [RString "Al  "; RString "   "] !! i = Some (RString (fill " " width))).
Proof.
  apply (dataRowCells_count plainRenderEntries missingAgeEntry
           {| columns := [ColString "Name"; ColString "Age"];
              rows := [RowObject {[ "Name" := VStr "Al" ]}] |}
           [4; 3] noOptions (RowObject {[ "Name" := VStr "Al" ]})
           [RString "Al  "; RString "   "]).
  - reflexivity.
  - by vm_compute.
Defined.

(** ** What the escape reaches *)

Lemma Forall2_flat_map {A B C} (P : B → C → Prop) (f : A → list B)
    (g : A → list C) (l : list A) :
  Forall (λ x, Forall2 P (f x) (g x)) l →
  Forall2 P (flat_map f l) (flat_map g l).
Proof.
  induction 1 as [|x l Hx _ IH]; simpl; [constructor|].
  by apply Forall2_app.
Qed.

Lemma flat_map_of_map {A B C} (f : B → list C) (g : A → B) (l : list A) :
  flat_map f (map g l) = flat_map (λ x, f (g x)) l.
Proof. induction l as [|x l IH]; simpl; [done | by rewrite IH]. Qed.

(** Every string of a value is rewritten by the escape, one or more times;
    none is dropped, added or moved. *)
Lemma stringsOf_escapeTimes p k v :
  Forall2 (rewrittenBy p) (stringsOf v) (stringsOf (escapeTimes (S k) p v)).
Proof.
  revert k. induction v as [| | | |s|items IH|props IH]
    using value_nested_ind; intros k; try constructor.
  - exists (S k). split; [lia | done].
  - constructor.
  - cbn [escapeTimes stringsOf]. rewrite flat_map_of_map.
    apply Forall2_flat_map. eapply Forall_impl; [exact IH|].
    intros x Hx. simpl.
    replace (2 * S k) with (S (S (2 * k))) by lia. apply Hx.
  - cbn [escapeTimes stringsOf]. rewrite flat_map_of_map.
    apply Forall2_flat_map. eapply Forall_impl; [exact IH|].
    intros x Hx. simpl. apply Hx.
Qed.

Lemma stringsOf_escapePipes_twice p v :
  Forall2 (rewrittenBy p) (stringsOf v)
    (stringsOf (escapePipes (escapePipes v p) p)).
Proof.
  unfold escapePipes, escapePipes_value. rewrite escapeTimes_compose.
  apply stringsOf_escapeTimes.
Qed.

Lemma stringsOf_escapePipes_array p (r : list value) k v :
  r !! k = Some v →
  ∃ v', escapePipes r p !! k = Some v' ∧
        Forall2 (rewrittenBy p) (stringsOf v) (stringsOf v').
Proof.
  intros Hv. exists (escapePipes (escapePipes v p) p). split.
  - unfold escapePipes at 1, escapePipes_array.
    by rewrite !list_lookup_fmap, Hv.
  - apply stringsOf_escapePipes_twice.
Qed.

Lemma columns_escapePipes_lookup (t : Table) p i column :
  columns t !! i = Some column →
  ∃ column',
    columns (escapePipes t p) !! i = Some column' ∧
    getColumnName column' = p (p (getColumnName column)) ∧
    getDataRowPropertyName column' = p (p (getDataRowPropertyName column)) ∧
    columnAlign column' = (p ∘ p) <$> columnAlign column.
Proof.
  intros Hc. exists (escapePipes (escapePipes column p) p). split.
  - by rewrite columns_escapePipes, list_lookup_fmap, Hc.
  - split; [by destruct column as [s|[n f a]]|].
    split; [by rewrite !getDataRowPropertyName_escapePipes|].
    by destruct column as [s|[n f [a|]]].
Qed.

Lemma rows_escapePipes_object (t : Table) p j m :
  rows t !! j = Some (RowObject m) →
  rows (escapePipes t p) !! j
  = Some (RowObject (escapePipes (escapePipes m p) p)).
Proof. intros Hm. by rewrite rows_escapePipes, list_lookup_fmap, Hm. Qed.

Lemma lookup_escapePipes_gmap (m : gmap string value) p key :
  escapePipes (escapePipes m p) p !! key
  = (λ v, escapePipes (escapePipes v p) p) <$> m !! key.
Proof.
  unfold escapePipes at 1 2, escapePipes_gmap. rewrite !lookup_fmap.
  by destruct (m !! key).
Qed.

Section Reach.

Variable renderEntries : list value → RenderOptions → rendered.

(** Whatever the replacer: the render does not change when a key that no
    column reads after the escape is removed from the mapping rows. *)
Lemma getTableMarkdown_withoutKey entry options t key :
  table entry = Some t →
  (∀ column, column ∈ columns t →
     default defaultPipeReplacer (pipeReplacer entry)
       (default defaultPipeReplacer (pipeReplacer entry)
          (getDataRowPropertyName column)) ≠ key) →
  (getTableMarkdown renderEntries (withoutKeyInRows key entry) options).1
  = (getTableMarkdown renderEntries entry options).1.
Proof.
  intros Ht Hkeys. unfold getTableMarkdown. cbn [fst].
  change (pipeReplacer (withoutKeyInRows key entry))
    with (pipeReplacer entry).
  set (p := default defaultPipeReplacer (pipeReplacer entry)) in *.
  rewrite escapePipes_withoutKeyInRows.
  destruct (escapePipes_table entry t p Ht) as (Ht' & _).
  apply (assembleTable_withoutKey _ _ _ _ _ Ht').
  rewrite columns_escapePipes.
  intros column' (column & -> & Hin)%list_elem_of_fmap.
  rewrite !getDataRowPropertyName_escapePipes. by apply Hkeys.
Qed.

End Reach.

(** C10 (amended). The escape rewrites in place every string that can be
    reached from the entry, with the entry's replacer [p] or the default
    one: the [append] string once, the name, the field and the alignment of
    every column twice, and every string inside every cell value and every
    other property, nested ones included, one or more times; it never
    rewrites the keys of the mapping rows. A column therefore reads a
    mapping row under its escaped key [p (p key)]: where that differs from
    the key as written, a row that has the value under the key as written
    and no property spelled like the escaped key yields [undefined], and
    the cell renders as that of a missing value. A property that no column
    reads after the escape does not reach the table: the render is the same
    without it. With the default replacer this is so for every key with a
    pipe in it, whose escaped spelling differs from it. With a replacer that
    leaves the key as it is, the value is found. *)
Theorem escape_reaches_strings_not_keys
    (renderEntries : list value → RenderOptions → rendered)
    (entry : TableEntry) (options : RenderOptions) (t : Table) :
  table entry = Some t →
  let p := default defaultPipeReplacer (pipeReplacer entry) in
  let entry' := (getTableMarkdown renderEntries entry options).2 in
  ∃ t',
    table entry' = Some t' ∧
    append entry' = p <$> append entry ∧
    Forall2 (λ kv kv',
               kv'.1 = kv.1 ∧
               Forall2 (rewrittenBy p) (stringsOf kv.2) (stringsOf kv'.2))
      (others entry) (others entry') ∧
    (∀ i column,
       columns t !! i = Some column →
       ∃ column',
         columns t' !! i = Some column' ∧
         getColumnName column' = p (p (getColumnName column)) ∧
         getDataRowPropertyName column'
         = p (p (getDataRowPropertyName column)) ∧
         columnAlign column' = (p ∘ p) <$> columnAlign column) ∧
    (∀ j r,
       rows t !! j = Some (RowArray r) →
       ∃ r',
         rows t' !! j = Some (RowArray r') ∧ length r' = length r ∧
         ∀ k v, r !! k = Some v →
                ∃ v', r' !! k = Some v' ∧
                      Forall2 (rewrittenBy p) (stringsOf v) (stringsOf v')) ∧
    (∀ j m,
       rows t !! j = Some (RowObject m) →
       ∃ m',
         rows t' !! j = Some (RowObject m') ∧ dom m' = dom m ∧
         (∀ key v, m !! key = Some v →
                   ∃ v', m' !! key = Some v' ∧
                         Forall2 (rewrittenBy p) (stringsOf v) (stringsOf v')) ∧
         ∀ i column column',
           columns t !! i = Some column → columns t' !! i = Some column' →
           cellValueAt (RowObject m') i column'
           = default VUndefined (m' !! p (p (getDataRowPropertyName column))) ∧
           (m !! p (p (getDataRowPropertyName column)) = None →
            cellValueAt (RowObject m') i column' = VUndefined)) ∧
    (∀ key,
       (∀ column, column ∈ columns t →
                  p (p (getDataRowPropertyName column)) ≠ key) →
       (getTableMarkdown renderEntries (withoutKeyInRows key entry) options).1
       = (getTableMarkdown renderEntries entry options).1) ∧
    (pipeReplacer entry = None →
     ∀ key, contains "|" key = true →
       p (p key) = defaultPipeReplacer key ∧
       defaultPipeReplacer key ≠ key ∧
       (getTableMarkdown renderEntries (withoutKeyInRows key entry)
          options).1
       = (getTableMarkdown renderEntries entry options).1).
Proof.
  intros Ht p entry'. unfold entry'.
  change ((getTableMarkdown renderEntries entry options).2)
    with (escapePipes entry p).
  destruct (escapePipes_table entry t p Ht) as (Ht' & _ & _ & _).
  exists (escapePipes t p). split; [done|]. split; [done|].
  split; [|split; [|split; [|split; [|split]]]].
  - unfold escapePipes at 1, escapePipes_TableEntry. cbn [others].
    unfold escapePipes at 1, escapePipes_props.
    apply Forall2_fmap_r, Forall_Forall2_diag, Forall_forall.
    intros [key v] _. split; [done|]. apply (stringsOf_escapeTimes p 0).
  - intros i column Hc. by apply columns_escapePipes_lookup.
  - intros j r Hr. exists (escapePipes (escapePipes r p) p).
    split; [by rewrite rows_escapePipes, list_lookup_fmap, Hr|].
    split; [unfold escapePipes, escapePipes_array; by rewrite !length_fmap|].
    intros k v Hv.
    exists (escapePipes (escapePipes (escapePipes (escapePipes v p) p) p) p).
    split.
    + unfold escapePipes at 1 2, escapePipes_array.
      by rewrite !list_lookup_fmap, Hv.
    + unfold escapePipes, escapePipes_value. rewrite !escapeTimes_compose.
      apply stringsOf_escapeTimes.
  - intros j m Hm. exists (escapePipes (escapePipes m p) p).
    split; [by apply rows_escapePipes_object|].
    split; [unfold escapePipes, escapePipes_gmap; by rewrite !dom_fmap_L|].
    split.
    + intros key v Hv. exists (escapePipes (escapePipes v p) p).
      split; [by rewrite lookup_escapePipes_gmap, Hv|].
      apply stringsOf_escapePipes_twice.
    + intros i column column' Hc Hc'.
      destruct (columns_escapePipes_lookup t p i column Hc)
        as (column'' & Hc'' & _ & Hkey & _).
      assert (column'' = column') as -> by congruence.
      unfold cellValueAt. rewrite Hkey. split; [done|].
      intros Hnone. by rewrite lookup_escapePipes_gmap, Hnone.
  - intros key Hkeys.
    by apply (getTableMarkdown_withoutKey renderEntries entry options t).
  - intros Hp key Hpipe.
    assert (p = defaultPipeReplacer) as Hdef by (unfold p; by rewrite Hp).
    rewrite Hdef. rewrite defaultPipeReplacer_idempotent.
    split; [done|]. split; [by apply defaultPipeReplacer_changes|].
    apply (getTableMarkdown_withoutKey renderEntries entry options t key Ht).
    rewrite Hp. simpl. intros column _ Heq.
    pose proof (defaultPipeReplacer_no_pipe
                  (defaultPipeReplacer (getDataRowPropertyName column))) as H.
    rewrite Heq in H. congruence.
Qed.

(** The entry whose field has a pipe, under the backslash replacer: the
    stored key gets two backslashes, the row keeps its key, and the render
    is the same without the row's property. *)
Lemma escape_reaches_strings_not_keys_witness :
  (getTableMarkdown plainRenderEntries
     (withoutKeyInRows "a|b"
        {| table := table pipeFieldEntry; append := Some "x|y";
           pipeReplacer := Some backslashReplacer;
           prefixCellValues := None; others := [] |}) noOptions).1
  = (getTableMarkdown plainRenderEntries
       {| table := table pipeFieldEntry; append := Some "x|y";
          pipeReplacer := Some backslashReplacer;
          prefixCellValues := None; others := [] |} noOptions).1.
Proof.
  destruct (escape_reaches_strings_not_keys plainRenderEntries
              {| table := table pipeFieldEntry; append := Some "x|y";
                 pipeReplacer := Some backslashReplacer;
                 prefixCellValues := None; others := [] |} noOptions
              {| columns := [ColObject (mkTableColumn "Key" (Some "a|b") None)];
                 rows := [RowObject {[ "a|b" := VStr "value" ]}] |} eq_refl)
    as (t' & _ & _ & _ & _ & _ & _ & Hunread & _).
  apply Hunread. intros column Hin.
  apply elem_of_cons in Hin as [->|Hin]; [by vm_compute|].
  by apply elem_of_nil in Hin.
Defined.

(** C10 as stated does not hold: with a replacer that returns its argument
    the field [a|b], which has a pipe, is stored as it was written, the
    lookup in the row keyed [a|b] finds the value, and the cell shows it. *)
Lemma kept_pipe_key_is_found :
  contains "|" "a|b" = true ∧
  table (getTableMarkdown plainRenderEntries keptPipeEntry noOptions).2
  = Some {| columns := [ColObject (mkTableColumn "Key" (Some "a|b") None)];
            rows := [RowObject {[ "a|b" := VStr "value" ]}] |} ∧
  cellValueAt (RowObject {[ "a|b" := VStr "value" ]}) 0
    (ColObject (mkTableColumn "Key" (Some "a|b") None)) = VStr "value" ∧
  (tableRenderer plainRenderEntries keptPipeEntry noOptions).1
  = Ok {| markdown := join newline ["| Key   |"; "| ----- |"; "| value |"];
          blockLevel := true |}.
Proof. repeat split; by vm_compute. Qed.

(** What is rendered for a missing value is not measured: under a long
    prefix the column stays 3 wide and the cell is 6 characters long. *)
Example missing_cell_is_not_measured :
  (tableRenderer prefixingRenderEntries
     (tableEntry [ColString "A"] [RowObject ∅])
     {| prefix := Some ">>>>> "; rest := [] |}).1
  = Ok {| markdown := join newline ["| A   |"; "| --- |"; "| >>>>>  |"];
          blockLevel := true |}.
Proof. by vm_compute. Qed.
